(** * A k-d tree with nearest-neighbour search: model and verification

    The development follows the C++ sources [point.h], [kd_tree.h] and
    [algo.h] of namespace [kd]:

    - [Point<T>] is a coordinate vector; its [dims_] is the length of the
      list that models [data_].
    - [Tree<T>] is a node that owns its two children: the field of a child
      holds the child itself, [None] for a null pointer.  The value of a
      pointer to a node is the node's address, the child links that lead to
      it from the root object; the non-owning [parent_] field holds such a
      value, and the iterator reads nodes through the root object.
    - The scalar type [T] is modelled by [Z], the ring in which the
      arithmetic of [T] is exact; [numeric_limits<T>::max()] is the parameter
      [T_max].
    - C++ exceptions, failed assertions and undefined behaviour are values of
      [exn]; every fallible operation returns a [result].
    - [std::sort] is used through its contract only (class [StdSort]): the
      order in which it leaves elements that compare equal is not fixed by
      the C++ standard.
    - Recursion on the length of a range and the [while] loops that follow
      [parent_] take a bound [fuel]; running out of it is the error
      [out_of_fuel], which the theorems exclude.
    - [findNN_] keeps a ghost log of the nodes it is entered on.
    - An output stream is the characters written to it and its field width;
      how a value of [T] is written is the parameter [show].
    - The two earlier versions of the tree, the function [KDTree] over
      [Node] and the class [KDTree<T,k>], are modelled in the modules
      [NodeTree] and [KDTreeK]. *)

From Stdlib Require Import ZArith List Lia Permutation Sorted.
From Stdlib Require Ascii String.
Import Ascii.AsciiSyntax String.StringSyntax.
Delimit Scope char_scope with char.
Delimit Scope string_scope with string.
From stdpp Require Import base tactics option list sorting numbers.

Open Scope Z_scope.

(** ** Errors *)

Inductive exn :=
| out_of_range          (* std::out_of_range thrown by Point::operator[] *)
| assertion_failed      (* assert(k == one_common_size) *)
| undefined_behaviour   (* dereferencing end() or an uninitialised pointer, x % 0 *)
| out_of_fuel.          (* the model's loop bound was too small *)

Inductive result (A : Type) :=
| Ok (a : A)
| Err (e : exn).
Arguments Ok {A} a.
Arguments Err {A} e.

#[global] Instance result_ret : MRet result := λ A a, Ok a.
#[global] Instance result_bind : MBind result := λ A B f r,
  match r with
  | Ok a => f a
  | Err e => Err e
  end.
#[global] Instance result_fmap : FMap result := λ A B f r,
  match r with
  | Ok a => Ok (f a)
  | Err e => Err e
  end.

(** ** Point *)

Abbreviation Point := (list Z).

Definition Point_size (p : Point) : nat := length p.

(** [operator[]]: bounds-checked access. *)
Definition Point_index (p : Point) (i : nat) : result Z :=
  match p !! i with
  | Some x => Ok x
  | None => Err out_of_range
  end.

(** The loop of [distance_to]: [data] is what is left of [data_] from index
    [i] on; [other] is read through its checked [operator[]]. *)
Fixpoint distance_loop (data : list Z) (other : Point) (i : nat) (total : Z)
  : result Z :=
  match data with
  | [] => Ok total
  | x :: data' =>
      y ← Point_index other i;
      distance_loop data' other (S i) (total + (x - y) * (x - y))
  end.

Definition distance_to (this other : Point) : result Z :=
  distance_loop this other 0 0.

(** ** std::sort *)

(** The key that the comparator [a[axis] < b[axis]] reads. *)
Definition coord (axis : nat) (p : Point) : Z := default 0 (p !! axis).

Definition axis_le (axis : nat) : relation Point :=
  λ a b, coord axis a ≤ coord axis b.

(** [std::sort(first, last, comp)] with [comp a b := a[axis] < b[axis]]:
    a permutation of the range in which no element compares less than an
    earlier one. *)
Class StdSort := {
  std_sort : nat → list Point → list Point;
  std_sort_perm : ∀ axis l, std_sort axis l ≡ₚ l;
  std_sort_sorted : ∀ axis l, StronglySorted (axis_le axis) (std_sort axis l)
}.

(** ** Tree *)

(** Which child link of its parent leads to a node. *)
Inductive link := left_link | right_link.

#[global] Instance link_eq_dec : EqDecision link.
Proof. solve_decision. Defined.

(** The value of a [Tree<T>*]: not yet assigned (as the default constructor
    [Tree() {}] leaves it), null, or the address of a node: the links that
    lead to the node from the root object, the last one first. *)
Inductive ptr :=
| indeterminate
| nullptr
| at_address (a : list link).

#[global] Instance ptr_eq_dec : EqDecision ptr.
Proof. solve_decision. Defined.

#[local] Unset Elimination Schemes.
Inductive Tree := mkTree {
  left_child_ : option Tree;
  right_child_ : option Tree;
  parent_ : ptr;
  split_axis_ : nat;
  dims_ : nat;
  split_point : Point
}.
#[local] Set Elimination Schemes.

(** [t->parent_ = p] *)
Definition set_parent_ (t : Tree) (p : ptr) : Tree :=
  mkTree (left_child_ t) (right_child_ t) p
         (split_axis_ t) (dims_ t) (split_point t).

(** The validation loop of the root call. [one_common_size] is [None] while
    the source's variable still holds [-1]. *)
Fixpoint validate_sizes (pts : list Point) (one_common_size : option nat)
  : result unit :=
  match pts with
  | [] => Ok ()
  | p :: pts' =>
      let k := Point_size p in
      match one_common_size with
      | None => validate_sizes pts' (Some k)
      | Some c =>
          if Nat.eqb k c then validate_sizes pts' one_common_size
          else Err assertion_failed
      end
  end.

(** The comparator throws when it indexes a point that has no coordinate
    [axis]; sorting a range of two or more elements compares every element
    at least once. *)
Definition comparator_throws (axis : nat) (pts : list Point) : bool :=
  Nat.leb 2 (length pts) && existsb (λ p, Nat.leb (Point_size p) axis) pts.

Section Construction.
Context `{StdSort}.

(** [this->RecursiveInit(points_begin, points_end, depth)], where [this] is
    the address of the object being initialised; [fuel] bounds the depth of
    the recursion.  The result is the object as the call leaves it: its
    [parent_] is assigned at depth 0 only, a child's by its parent after the
    child's own call has returned. *)
Fixpoint RecursiveInit_ (fuel : nat) (this : list link) (pts : list Point)
    (depth : nat) : result Tree :=
  match fuel with
  | O => Err out_of_fuel
  | S fuel' =>
      let parent := if Nat.eqb depth 0 then nullptr else indeterminate in
      _ ← (if Nat.eqb depth 0 then validate_sizes pts None else Ok ());
      first ← match pts with
              | [] => Err undefined_behaviour
              | p :: _ => Ok p
              end;
      let dims := Point_size first in
      if Nat.eqb dims 0 then Err undefined_behaviour else
      let axis := (depth mod dims)%nat in
      if comparator_throws axis pts then Err out_of_range else
      let sorted := std_sort axis pts in
      let m := (length pts / 2)%nat in
      median ← match sorted !! m with
               | Some p => Ok p
               | None => Err undefined_behaviour
               end;
      let before := take m sorted in
      let after := drop (S m) sorted in
      left ← (if Nat.leb (length before) 0 then Ok None
              else
                l ← RecursiveInit_ fuel' (left_link :: this) before (S depth);
                Ok (Some (set_parent_ l (at_address this))));
      right ← (if Nat.leb (length after) 0 then Ok None
               else
                 r ← RecursiveInit_ fuel' (right_link :: this) after (S depth);
                 Ok (Some (set_parent_ r (at_address this))));
      Ok {| left_child_ := left; right_child_ := right; parent_ := parent;
            split_axis_ := axis; dims_ := dims; split_point := median |}
  end.

Definition RecursiveInit (this : list link) (pts : list Point) (depth : nat)
  : result Tree :=
  RecursiveInit_ (S (length pts)) this pts depth.

(** [Tree(std::initializer_list<Point<T>>)] and [Tree(Container&&)]: the
    object constructed is the root, at the empty address. *)
Definition Tree_new (pts : list Point) : result Tree :=
  RecursiveInit [] pts 0.
End Construction.

(** ** The iterator *)

(** The child a link leads to. *)
Definition child (lk : link) (t : Tree) : option Tree :=
  match lk with
  | left_link => left_child_ t
  | right_link => right_child_ t
  end.

(** The node at an address below the root object. *)
Fixpoint node_at (root : Tree) (a : list link) : option Tree :=
  match a with
  | [] => Some root
  | lk :: a' => node_at root a' ≫= child lk
  end.

(** Dereferencing a pointer. *)
Definition load (root : Tree) (p : ptr) : result Tree :=
  match p with
  | at_address a =>
      match node_at root a with
      | Some t => Ok t
      | None => Err undefined_behaviour
      end
  | _ => Err undefined_behaviour
  end.

(** The value of the field [left_child_] or [right_child_] of the node [t]
    at address [a]. *)
Definition child_ptr (lk : link) (a : list link) (t : Tree) : ptr :=
  match child lk t with
  | Some _ => at_address (lk :: a)
  | None => nullptr
  end.

Definition ptr_eqb (p q : ptr) : bool := bool_decide (p = q).

(** The loop of [TreeIterator(nodeptr node)], with [node] at address [a]
    pointing to [t]: it returns the final value of [node]. *)
Fixpoint deepest_leftmost (t : Tree) (a : list link) : list link :=
  match left_child_ t with
  | Some l => deepest_leftmost l (left_link :: a)
  | None =>
      match right_child_ t with
      | Some r => deepest_leftmost r (right_link :: a)
      | None => a
      end
  end.

(** [TreeIterator(nodeptr node)]: the field [p] of the new iterator. *)
Definition TreeIterator_new (root : Tree) (node : ptr) : result ptr :=
  match node with
  | at_address a =>
      t ← load root node;
      Ok (at_address (deepest_leftmost t a))
  | _ => Err undefined_behaviour
  end.

(** [while (p->left_child_) p = p->left_child_;] *)
Fixpoint leftmost (t : Tree) (a : list link) : list link :=
  match left_child_ t with
  | Some l => leftmost l (left_link :: a)
  | None => a
  end.

(** [while (parent && parent->right_child_ == p) { p = parent; parent =
    parent->parent(); }]: returns [p] and [parent] at the exit. *)
Fixpoint climb (fuel : nat) (root : Tree) (p : list link) (parent : ptr)
  : result (list link * ptr) :=
  match fuel with
  | O => Err out_of_fuel
  | S fuel' =>
      match parent with
      | indeterminate => Err undefined_behaviour
      | nullptr => Ok (p, parent)
      | at_address pa =>
          parent_node ← load root parent;
          if ptr_eqb (child_ptr right_link pa parent_node) (at_address p)
          then climb fuel' root pa (parent_ parent_node)
          else Ok (p, parent)
      end
  end.

(** [operator++] on the iterator whose field [p] is [it]; [fuel] bounds the
    inner [while] loop along [parent_].  Returns the new value of [p]. *)
Definition operator_inc (fuel : nat) (root : Tree) (it : ptr) : result ptr :=
  match it with
  | at_address p =>
      node ← load root it;
      match right_child_ node with
      | Some r => Ok (at_address (leftmost r (right_link :: p)))
      | None =>
          '(p, parent) ← climb fuel root p (parent_ node);
          match parent with
          | indeterminate => Err undefined_behaviour
          | nullptr => Ok parent
          | at_address _ =>
              node ← load root (at_address p);
              if negb (ptr_eqb (child_ptr right_link p node) parent)
              then Ok parent
              else Ok (at_address p)
          end
      end
  | _ => Err undefined_behaviour
  end.

(** [operator*] *)
Definition deref (root : Tree) (it : ptr) : result Point :=
  split_point <$> load root it.

(** [begin()] and [end()] of the root object. *)
Definition begin (tree : Tree) : result ptr :=
  TreeIterator_new tree (at_address []).
Definition end_ : ptr := nullptr.

(** [for (; it != end(); ++it) body(it)], threading the variables the body
    assigns as a state [s]; [fuel] bounds the number of iterations, [bound]
    the loop inside each [operator++]. *)
Fixpoint for_range_ {St : Type} (bound fuel : nat) (root : Tree) (it : ptr)
    (body : ptr → St → result St) (s : St) : result St :=
  match fuel with
  | O => if ptr_eqb it end_ then Ok s else Err out_of_fuel
  | S fuel' =>
      if ptr_eqb it end_ then Ok s
      else
        s' ← body it s;
        it' ← operator_inc bound root it;
        for_range_ bound fuel' root it' body s'
  end.

(** [for (it = tree.begin(); it != tree.end(); ++it) body(it)] *)
Definition for_range {St : Type} (fuel : nat) (tree : Tree)
    (body : ptr → St → result St) (s : St) : result St :=
  first ← begin tree;
  for_range_ fuel fuel tree first body s.

(** ** Nearest-neighbour search *)

Section Search.
(** [std::numeric_limits<T>::max()] *)
Variable T_max : Z.

(** The body of the loop of [findNN_brute_force]; [best_point] is [None]
    while the pointer is uninitialised. *)
Definition brute_force_body (tree : Tree) (ref_point : Point) (it : ptr)
    (best : option Point * Z) : result (option Point * Z) :=
  point ← deref tree it;
  dist ← distance_to point ref_point;
  if dist <? best.2 then Ok (Some point, dist) else Ok best.

Definition findNN_brute_force (fuel : nat) (tree : Tree) (ref_point : Point)
  : result Point :=
  best ← for_range fuel tree (brute_force_body tree ref_point) (None, T_max);
  match best.1 with
  | Some p => Ok p
  | None => Err undefined_behaviour
  end.

(** What [findNN_] reads and writes through [best_point] and [best_dist].
    [calls] is a ghost log: the point of every node on which [findNN_] has
    been entered, in call order. *)
Record search_state := mkState {
  best_point : Point;
  best_dist : Z;
  calls : list Point
}.

Fixpoint findNN_ (tree_node : Tree) (ref_point : Point) (st : search_state)
  : result search_state :=
  let local_point := split_point tree_node in
  let st := mkState (best_point st) (best_dist st) (calls st ++ [local_point]) in
  local_dist ← distance_to local_point ref_point;
  let st := if local_dist <? best_dist st
            then mkState local_point local_dist (calls st) else st in
  let split_dim := split_axis_ tree_node in
  r ← Point_index ref_point split_dim;
  l ← Point_index local_point split_dim;
  let d := r - l in
  let closer_child := if 0 <? d then right_child_ tree_node else left_child_ tree_node in
  let farther_child := if 0 <? d then left_child_ tree_node else right_child_ tree_node in
  st ← match closer_child with
       | Some c => findNN_ c ref_point st
       | None => Ok st
       end;
  if d * d <? best_dist st then
    match farther_child with
    | Some f => findNN_ f ref_point st
    | None => Ok st
    end
  else Ok st.

Definition findNN_init (tree : Tree) : search_state :=
  mkState (split_point tree) T_max [].

Definition findNN (tree : Tree) (ref_point : Point) : result Point :=
  st ← findNN_ tree ref_point (findNN_init tree);
  Ok (best_point st).
End Search.

(** ** An implementation of the sorting contract *)

#[global] Instance axis_le_dec axis : RelDecision (axis_le axis).
Proof. intros a b. unfold axis_le. apply Z_le_dec. Defined.

#[global] Instance axis_le_total axis : Total (axis_le axis).
Proof. intros a b. unfold axis_le. lia. Qed.

#[global] Instance axis_le_trans axis : Transitive (axis_le axis).
Proof. intros a b c. unfold axis_le. lia. Qed.

#[global] Program Instance merge_StdSort : StdSort := {|
  std_sort axis l := merge_sort (axis_le axis) l
|}.
Next Obligation. intros. apply merge_sort_Permutation. Qed.
Next Obligation. intros. apply StronglySorted_merge_sort; apply _. Qed.

(** ** Specification vocabulary *)

(** All nodes of a tree, left subtree first, then the node, then the right
    subtree. *)
Fixpoint nodes (t : Tree) : list Tree :=
  match left_child_ t with Some l => nodes l | None => [] end
  ++ t ::
  match right_child_ t with Some r => nodes r | None => [] end.

Definition nodes_of (o : option Tree) : list Tree :=
  match o with Some t => nodes t | None => [] end.

(** The points stored in a tree. *)
Definition points (t : Tree) : list Point := split_point <$> nodes t.
Definition points_of (o : option Tree) : list Point := split_point <$> nodes_of o.

(** Number of levels. *)
Fixpoint height (t : Tree) : nat :=
  S (Nat.max (match left_child_ t with Some l => height l | None => O end)
             (match right_child_ t with Some r => height r | None => O end)).

Definition height_of (o : option Tree) : nat :=
  match o with Some t => height t | None => O end.

(** The addresses of all nodes of the subtree [t] at address [a], in the
    order of [nodes]. *)
Fixpoint node_addrs (t : Tree) (a : list link) : list (list link) :=
  match left_child_ t with
  | Some l => node_addrs l (left_link :: a)
  | None => []
  end
  ++ a ::
  match right_child_ t with
  | Some r => node_addrs r (right_link :: a)
  | None => []
  end.

(** The addresses of the nodes below the child link [lk] of the node at
    [a]. *)
Definition child_addrs (lk : link) (a : list link) (c : option Tree)
  : list (list link) :=
  match c with
  | Some c' => node_addrs c' (lk :: a)
  | None => []
  end.

(** Every [parent_] holds the address of the node one link up, and null at
    the root. *)
Definition linked (root : Tree) : Prop :=
  ∀ a t, node_at root a = Some t →
    parent_ t = match a with
                | [] => nullptr
                | _ :: a' => at_address a'
                end.

(** Where [operator++] goes from the last node of the subtree at an
    address: up past every right link, then one link further. *)
Fixpoint next_up (a : list link) : ptr :=
  match a with
  | [] => nullptr
  | left_link :: a' => at_address a'
  | right_link :: a' => next_up a'
  end.

(** What the loop inside [operator++] returns when started at an address:
    the address with its leading right links removed, and the address one
    link further up. *)
Fixpoint climbed (a : list link) : list link * ptr :=
  match a with
  | [] => ([], nullptr)
  | left_link :: a' => (a, at_address a')
  | right_link :: a' => climbed a'
  end.

(** Running a loop body over a list of iterator positions. *)
Fixpoint run_body {St : Type} (body : ptr → St → result St)
    (ps : list ptr) (s : St) : result St :=
  match ps with
  | [] => Ok s
  | p :: ps' => s' ← body p s; run_body body ps' s'
  end.

(** The body that records the position of the iterator. *)
Definition record_visit (it : ptr) (seen : list ptr) : result (list ptr) :=
  Ok (seen ++ [it]).

(** Squared Euclidean distance over the coordinates both points have. *)
Fixpoint sqdist (p q : list Z) : Z :=
  match p, q with
  | x :: p', y :: q' => (x - y) * (x - y) + sqdist p' q'
  | _, _ => 0
  end.

(** The invariant of a subtree: the split of every node separates its two
    subtrees along the node's axis. *)
Definition splits (t : Tree) : Prop :=
  (∀ x, x ∈ points_of (left_child_ t) →
        coord (split_axis_ t) x ≤ coord (split_axis_ t) (split_point t)) ∧
  (∀ x, x ∈ points_of (right_child_ t) →
        coord (split_axis_ t) (split_point t) ≤ coord (split_axis_ t) x).

(** A node with a right child has a left child. *)
Definition left_first (t : Tree) : Prop :=
  is_Some (right_child_ t) → is_Some (left_child_ t).

(** A child pointer handed to [findNN_]: nothing happens on [nullptr]. *)
Definition search_child (ref_point : Point) (child : option Tree)
    (st : search_state) : result search_state :=
  match child with
  | Some c => findNN_ c ref_point st
  | None => Ok st
  end.

(** What a search keeps in [best_point] and [best_dist]. *)
Definition best (st : search_state) : Point * Z := (best_point st, best_dist st).

(** [improves is_at pts q b b']: scanning the points [pts] for the nearest
    to [q] may take the pair [b] of best pointer and best distance to [b'].
    The distance never grows and ends below that of every scanned point; the
    pair either is unchanged or names a scanned point that is strictly
    nearer than the old best distance. *)
Definition improves {B : Type} (is_at : B → Point → Prop)
    (pts : list Point) (q : Point) (b b' : B * Z) : Prop :=
  b'.2 ≤ b.2 ∧
  (∀ p, p ∈ pts → b'.2 ≤ sqdist p q) ∧
  (b' = b ∨ ∃ p, p ∈ pts ∧ is_at b'.1 p ∧ sqdist p q = b'.2 ∧ b'.2 < b.2).

(** The ranges [RecursiveInit] is defined on: at least one point, and one
    dimensionality, not zero, for all of them. *)
Definition buildable (k : nat) (pts : list Point) : Prop :=
  pts ≠ [] ∧ (0 < k)%nat ∧ Forall (λ p, Point_size p = k) pts.

(** [a[axis] <= b[axis]], both read through [operator[]]. *)
Definition coord_le (axis : nat) (a b : Point) : Prop :=
  ∃ x y, Point_index a axis = Ok x ∧ Point_index b axis = Ok y ∧ x ≤ y.

(** The conditions under which the search of a subtree raises nothing. *)
Definition searchable (k : nat) (o : option Tree) : Prop :=
  Forall splits (nodes_of o) ∧
  Forall (λ n, (split_axis_ n < k)%nat) (nodes_of o) ∧
  Forall (λ p, length p = k) (points_of o).

(** The value [RecursiveInit] leaves in [parent_] itself. *)
Definition own_parent (depth : nat) : ptr :=
  if Nat.eqb depth 0 then nullptr else indeterminate.

Section BuiltSpec.
Context `{StdSort}.
Variable k : nat.

(** What construction makes of a range at a depth, as a relation between
    the address [this] of the object, the range, the depth, the value [par]
    that ends up in the object's [parent_], and the child pointer that
    results ([None] for an empty range). *)
Inductive Built : list link → list Point → nat → ptr → option Tree → Prop :=
| Built_null this depth par : Built this [] depth par None
| Built_node this pts depth par median l r :
    pts ≠ [] →
    std_sort (depth mod k)%nat pts !! (length pts / 2)%nat = Some median →
    Built (left_link :: this)
          (take (length pts / 2)%nat (std_sort (depth mod k)%nat pts))
          (S depth) (at_address this) l →
    Built (right_link :: this)
          (drop (S (length pts / 2)%nat) (std_sort (depth mod k)%nat pts))
          (S depth) (at_address this) r →
    Built this pts depth par (Some (mkTree l r par (depth mod k)%nat k median)).
End BuiltSpec.

(** The example of the test program: six points in the plane. *)
Definition wiki : list Point := [[2; 3]; [5; 4]; [9; 6]; [4; 7]; [8; 1]; [7; 2]].

(** A root [(5,4)] splitting on axis 0 with the single left child [(2,3)]. *)
Definition two_nodes : Tree :=
  mkTree (Some (mkTree None None (at_address []) 1 2 [2; 3])) None nullptr
         0 2 [5; 4].

(** The tree constructed from the single point [p]. *)
Definition single (p : Point) : Tree :=
  mkTree None None nullptr 0 (length p) p.

(** [numeric_limits<int>::max()] *)
Definition INT_MAX : Z := 2147483647.

(** ** Tactics *)

(** Integer halving, as linear facts. *)
Ltac half_facts n :=
  pose proof (Nat.div_mod_eq n 2);
  pose proof (Nat.mod_upper_bound n 2 ltac:(lia)).

(** ** More of [Point] *)

(** [Point()]: no coordinates; a point that has been moved from is in the
    same state ([data_ = nullptr], [dims_ = 0]). *)
Definition Point_default : Point := [].

(** [p[i] = v]: [operator[]] returns a reference after the same check as for
    reading. *)
Definition Point_assign (p : Point) (i : nat) (v : Z) : result Point :=
  if Nat.leb (Point_size p) i then Err out_of_range
  else Ok (<[i := v]> p).

(** [this = std::move(rhs)]: the pair of [this] and [rhs] afterwards. *)
Definition Point_move_assign (this rhs : Point) : Point * Point :=
  (rhs, Point_default).

(** What [operator==] and [operator!=] produce: a truth value, or the
    exception [std::logic_error]. *)
Inductive compared :=
| returns (b : bool)
| throws_logic_error.

(** The loop of [operator==] over [data_] and [rhs.data_], which have the
    same length when it runs. *)
Fixpoint all_equal_loop (data rhs_data : list Z) (all_equal : bool) : bool :=
  match data, rhs_data with
  | x :: data', y :: rhs_data' =>
      all_equal_loop data' rhs_data' (all_equal && (x =? y))
  | _, _ => all_equal
  end.

Definition operator_eq (this rhs : Point) : compared :=
  if negb (Nat.eqb (Point_size this) (Point_size rhs)) then throws_logic_error
  else returns (all_equal_loop this rhs true).

Definition operator_ne (this b : Point) : compared :=
  match operator_eq this b with
  | returns r => returns (negb r)
  | throws_logic_error => throws_logic_error
  end.

(** ** Output *)

Abbreviation chars := (list Ascii.ascii).

(** A string literal as the characters it holds. *)
Abbreviation lit s := (String.list_ascii_of_string s%string).

(** The line feed of ["\n"]. *)
Definition LF : Ascii.ascii := Ascii.ascii_of_nat 10.

(** A [std::ostringstream]: the characters it holds, the put position and
    [failbit]. *)
Record ostringstream := mkBuffer {
  str : chars;
  put_pos : nat;
  failbit : bool
}.

Definition ostringstream_new : ostringstream := mkBuffer [] 0 false.

(** [buffer << s] at field width 0: nothing on a failed stream; otherwise
    the characters go to the put position, over what is there and past the
    end. *)
Definition put (s : chars) (buffer : ostringstream) : ostringstream :=
  if failbit buffer then buffer
  else mkBuffer (take (put_pos buffer) (str buffer) ++ s ++
                 drop (put_pos buffer + length s) (str buffer))
                (put_pos buffer + length s) false.

(** [buffer.seekp(-back, std::ios_base::end)]: a position before the first
    character cannot be sought, which sets [failbit]. *)
Definition seekp_end (back : nat) (buffer : ostringstream) : ostringstream :=
  if failbit buffer then buffer
  else if Nat.ltb (length (str buffer)) back
       then mkBuffer (str buffer) (put_pos buffer) true
       else mkBuffer (str buffer) (length (str buffer) - back) false.

(** A [std::ostream]: the characters written so far and the field width
    that the next formatted output uses. *)
Record ostream := mkStream {
  written : chars;
  width : nat
}.

(** [stream << std::setw(n)] *)
Definition setw (n : nat) (stream : ostream) : ostream :=
  mkStream (written stream) n.

(** [stream << s] for a character or a string: padded on the left with the
    fill character, a space, up to the field width, which is then reset. *)
Definition emit (s : chars) (stream : ostream) : ostream :=
  mkStream (written stream ++ replicate (width stream - length s) " "%char ++ s) 0.

Section Printing.
(** [buffer << x] for a value of [T] at field width 0. *)
Variable show : Z → chars.

(** The loop of [operator<<] for points. *)
Fixpoint print_coords (data : list Z) (buffer : ostringstream) : ostringstream :=
  match data with
  | [] => buffer
  | x :: data' => print_coords data' (put (lit ", ") (put (show x) buffer))
  end.

(** What [operator<<] for points leaves in [buffer.str()]. *)
Definition Point_str (point : Point) : chars :=
  let buffer := put (lit "(") ostringstream_new in
  let buffer := print_coords point buffer in
  let buffer := seekp_end 2 buffer in
  let buffer := put (lit ")") buffer in
  str buffer.

(** [stream << point] *)
Definition print_Point (point : Point) (stream : ostream) : ostream :=
  emit (Point_str point) stream.

(** [while (parent != nullptr) { depth += 1; parent = parent->parent_; }] *)
Fixpoint depth_loop (fuel : nat) (root : Tree) (parent : ptr) (depth : nat)
  : result nat :=
  match fuel with
  | O => Err out_of_fuel
  | S fuel' =>
      match parent with
      | indeterminate => Err undefined_behaviour
      | nullptr => Ok depth
      | at_address _ =>
          parent_node ← load root parent;
          depth_loop fuel' root (parent_ parent_node) (depth + 1)
      end
  end.

(** [stream << tree] for a node [tree] of the tree below [root]; [fuel]
    bounds the loop along [parent_]. *)
Fixpoint print_Tree (fuel : nat) (root : Tree) (tree : Tree) (stream : ostream)
  : result ostream :=
  stream ← match right_child_ tree with
           | Some r => print_Tree fuel root r stream
           | None => Ok stream
           end;
  depth ← depth_loop fuel root (parent_ tree) 0;
  let indent := (depth * 4)%nat in
  let stream := emit (lit " ") (setw indent stream) in
  let stream := match right_child_ tree with
                | Some _ =>
                    emit (lit " ") (setw indent (emit (lit " /" ++ [LF]) stream))
                | None => stream
                end in
  let stream := emit (LF :: lit " ") (print_Point (split_point tree) stream) in
  match left_child_ tree with
  | Some l =>
      let stream := emit (lit " \" ++ [LF]) (emit (lit " ") (setw indent stream)) in
      print_Tree fuel root l stream
  | None => Ok stream
  end.
End Printing.

(** ** Construction, through the caller's eyes *)

Section Construction_in_place.
Context `{StdSort}.

(** [RecursiveInit] sorts the caller's range in place and moves every point
    it stores out of the range.  This is [RecursiveInit_] returning, beside
    the object, what the range holds when the call returns. *)
Fixpoint RecursiveInit_in_place (fuel : nat) (this : list link)
    (pts : list Point) (depth : nat) : result (Tree * list Point) :=
  match fuel with
  | O => Err out_of_fuel
  | S fuel' =>
      let parent := if Nat.eqb depth 0 then nullptr else indeterminate in
      _ ← (if Nat.eqb depth 0 then validate_sizes pts None else Ok ());
      first ← match pts with
              | [] => Err undefined_behaviour
              | p :: _ => Ok p
              end;
      let dims := Point_size first in
      if Nat.eqb dims 0 then Err undefined_behaviour else
      let axis := (depth mod dims)%nat in
      if comparator_throws axis pts then Err out_of_range else
      let sorted := std_sort axis pts in
      let m := (length pts / 2)%nat in
      median ← match sorted !! m with
               | Some p => Ok p
               | None => Err undefined_behaviour
               end;
      let '(split, moved_from) := Point_move_assign Point_default median in
      let before := take m sorted in
      let after := drop (S m) sorted in
      '(left_child, before) ←
        (if Nat.leb (length before) 0 then Ok (None, before)
         else
           '(l, before) ← RecursiveInit_in_place fuel' (left_link :: this)
                            before (S depth);
           Ok (Some (set_parent_ l (at_address this)), before));
      '(right_child, after) ←
        (if Nat.leb (length after) 0 then Ok (None, after)
         else
           '(r, after) ← RecursiveInit_in_place fuel' (right_link :: this)
                           after (S depth);
           Ok (Some (set_parent_ r (at_address this)), after));
      Ok ({| left_child_ := left_child; right_child_ := right_child;
             parent_ := parent;
             split_axis_ := axis; dims_ := dims; split_point := split |},
          before ++ moved_from :: after)
  end.

(** [Tree(Container&& input, int depth)]: the root object, at the empty
    address, and [input] afterwards. *)
Definition Tree_new_in_place (input : list Point) (depth : nat)
  : result (Tree * list Point) :=
  RecursiveInit_in_place (S (length input)) [] input depth.
End Construction_in_place.

(** ** More of the iterator and of the loops over it *)

(** The body of a loop [for (const auto& point : tree)] that appends every
    point to a sequence. *)
Definition collect (tree : Tree) (it : ptr) (seen : list Point)
  : result (list Point) :=
  point ← deref tree it;
  Ok (seen ++ [point]).

(** Where [operator++] goes from the last node of the subtree at an address
    when the [parent_] of the root object has never been assigned. *)
Fixpoint next_up_unset (a : list link) : result ptr :=
  match a with
  | [] => Err undefined_behaviour
  | left_link :: a' => Ok (at_address a')
  | right_link :: a' => next_up_unset a'
  end.

(** Every [parent_] but the root's holds the address of the node one link
    up. *)
Definition linked_below (root : Tree) : Prop :=
  ∀ lk a t, node_at root (lk :: a) = Some t → parent_ t = at_address a.

(** ** Vocabulary for output *)

(** [n] spaces. *)
Definition spaces (n : nat) : chars := replicate n " "%char.

(** What [stream << std::setw(indent) << ' '] writes. *)
Definition indentation (depth : nat) : chars :=
  spaces (Nat.max (depth * 4) 1).

(** The coordinates as shown, each followed by [sep] but the last. *)
Fixpoint separated (show : Z → chars) (sep : chars) (data : list Z) : chars :=
  match data with
  | [] => []
  | [x] => show x
  | x :: data' => show x ++ sep ++ separated show sep data'
  end.

(** The characters that [operator<<] writes for one node at a depth. *)
Definition node_lines (show : Z → chars) (n : Tree) (depth : nat) : chars :=
  indentation depth ++
  match right_child_ n with
  | Some _ => lit " /" ++ [LF] ++ indentation depth
  | None => []
  end ++
  Point_str show (split_point n) ++ LF :: lit " " ++
  match left_child_ n with
  | Some _ => indentation depth ++ lit " \" ++ [LF]
  | None => []
  end.

(** The nodes of the subtree [t] at depth [depth], each with its depth:
    right subtree first, then the node, then the left subtree. *)
Fixpoint nodes_rev (t : Tree) (depth : nat) : list (Tree * nat) :=
  match right_child_ t with Some r => nodes_rev r (S depth) | None => [] end
  ++ (t, depth) ::
  match left_child_ t with Some l => nodes_rev l (S depth) | None => [] end.

(** ** Earlier versions of the tree *)

(** [std::vector<T>::operator[]] is not checked: a comparator that reads a
    coordinate which a vector does not have is undefined behaviour where
    [Point::operator[]] throws. *)
Definition comparator_reads_outside (axis : nat) (pts : list (list Z)) : bool :=
  comparator_throws axis pts.

(** The first version: a [Node] owns its children and has no pointer to its
    parent; the function [KDTree] builds the nodes. *)
Module NodeTree.

#[local] Unset Elimination Schemes.
Inductive Node := mkNode {
  left_child_ : option Node;
  right_child_ : option Node;
  split_point_ : list Z
}.
#[local] Set Elimination Schemes.

Section Build.
Context `{StdSort}.

(** [KDTree<T>(points_begin, points_end, depth)]; [None] is [nullptr]. *)
Fixpoint KDTree_ (fuel : nat) (pts : list (list Z)) (depth : nat)
  : result (option Node) :=
  match fuel with
  | O => Err out_of_fuel
  | S fuel' =>
      match pts with
      | [] => Ok None
      | first :: _ =>
          let k := length first in
          if Nat.eqb k 0 then Err undefined_behaviour else
          let axis := (depth mod k)%nat in
          if comparator_reads_outside axis pts then Err undefined_behaviour else
          let sorted := std_sort axis pts in
          let m := (length pts / 2)%nat in
          median_point ← match sorted !! m with
                         | Some p => Ok p
                         | None => Err undefined_behaviour
                         end;
          leftChild ← KDTree_ fuel' (take m sorted) (depth + 1);
          rightChild ← KDTree_ fuel' (drop (S m) sorted) (depth + 1);
          Ok (Some (mkNode leftChild rightChild median_point))
      end
  end.

Definition KDTree (pts : list (list Z)) (depth : nat) : result (option Node) :=
  KDTree_ (S (length pts)) pts depth.
End Build.

(** [deleteTree(root)]: the number of objects deleted. *)
Fixpoint deleteTree_ (root : Node) : nat :=
  S (match left_child_ root with Some l => deleteTree_ l | None => O end +
     match right_child_ root with Some r => deleteTree_ r | None => O end).

Definition deleteTree (root : option Node) : result nat :=
  match root with
  | None => Err undefined_behaviour
  | Some n => Ok (deleteTree_ n)
  end.

End NodeTree.

(** A [Tree] without the fields that a [Node] lacks. *)
Fixpoint Node_of_Tree (t : Tree) : NodeTree.Node :=
  NodeTree.mkNode
    (match left_child_ t with Some l => Some (Node_of_Tree l) | None => None end)
    (match right_child_ t with Some r => Some (Node_of_Tree r) | None => None end)
    (split_point t).

(** The second version: the class [KDTree<T,k>], whose constructor leaves
    some fields as they were allocated. *)
Module KDTreeK.

(** The value of a pointer to an object that the holder deletes: never
    assigned, null, or the object. *)
Inductive owned (A : Type) :=
| unassigned
| null
| owns (t : A).
Arguments unassigned {A}.
Arguments null {A}.
Arguments owns {A} t.

#[local] Unset Elimination Schemes.
Inductive KDTree := mkKDTree {
  left_child_ : owned KDTree;
  right_child_ : owned KDTree;
  parent_ : ptr;
  split_point_ : list Z;
  split_axis_ : option nat
}.
#[local] Set Elimination Schemes.

(** [t->setParent(p)] *)
Definition setParent (t : KDTree) (p : ptr) : KDTree :=
  mkKDTree (left_child_ t) (right_child_ t) p (split_point_ t) (split_axis_ t).

Section Build.
Context `{StdSort}.
(** The template parameter [k]. *)
Variable k : nat.

(** The constructor [KDTree(points_begin, points_end, depth)] for the object
    at address [this].  When the range after the median is empty it is
    [left_child_] that is set to null; [split_axis_] is never assigned. *)
Fixpoint KDTree_new_ (fuel : nat) (this : list link) (pts : list (list Z))
    (depth : nat) : result KDTree :=
  match fuel with
  | O => Err out_of_fuel
  | S fuel' =>
      let parent := if Nat.eqb depth 0 then nullptr else indeterminate in
      if Nat.eqb k 0 then Err undefined_behaviour else
      let axis := (depth mod k)%nat in
      if comparator_reads_outside axis pts then Err undefined_behaviour else
      let sorted := std_sort axis pts in
      let m := (length pts / 2)%nat in
      split_point ← match sorted !! m with
                     | Some p => Ok p
                     | None => Err undefined_behaviour
                     end;
      let before := take m sorted in
      let after := drop (S m) sorted in
      left_child ←
        (if Nat.leb (length before) 0 then Ok null
         else
           l ← KDTree_new_ fuel' (left_link :: this) before (depth + 1);
           Ok (owns (setParent l (at_address this))));
      '(left_child, right_child) ←
        (if Nat.leb (length after) 0 then Ok (null, unassigned)
         else
           r ← KDTree_new_ fuel' (right_link :: this) after (depth + 1);
           Ok (left_child, owns (setParent r (at_address this))));
      Ok (mkKDTree left_child right_child parent split_point None)
  end.

Definition KDTree_new (pts : list (list Z)) : result KDTree :=
  KDTree_new_ (S (length pts)) [] pts 0.
End Build.

(** The loop of [iterator(KDTree<T,k>* node)], with [node] at address [a]:
    [node->left_child() || node->right_child()] reads the right child only
    when the left one is null. *)
Fixpoint iterator_new (node : KDTree) (a : list link) : result (list link) :=
  match left_child_ node with
  | unassigned => Err undefined_behaviour
  | owns l => iterator_new l (left_link :: a)
  | null =>
      match right_child_ node with
      | unassigned => Err undefined_behaviour
      | owns r => iterator_new r (right_link :: a)
      | null => Ok a
      end
  end.

(** [begin()] *)
Definition begin (tree : KDTree) : result (list link) := iterator_new tree [].

(** The points of the nodes that the object still owns. *)
Fixpoint points (t : KDTree) : list (list Z) :=
  match left_child_ t with owns l => points l | _ => [] end
  ++ split_point_ t ::
  match right_child_ t with owns r => points r | _ => [] end.

End KDTreeK.
(** * Proofs *)

(** ** Induction on trees *)

Lemma Tree_ind (P : Tree → Prop) :
  (∀ t, (∀ l, left_child_ t = Some l → P l) →
        (∀ r, right_child_ t = Some r → P r) → P t) →
  ∀ t, P t.
Proof.
  intros step. fix rec 1. intros [l r a d p].
  apply step; simpl.
  - destruct l as [l'|]; intros c [= <-]. apply rec.
  - destruct r as [r'|]; intros c [= <-]. apply rec.
Qed.

(** ** The result monad *)

Lemma bind_Ok {A B} (r : result A) (f : A → result B) b :
  r ≫= f = Ok b ↔ ∃ a, r = Ok a ∧ f a = Ok b.
Proof.
  destruct r as [a|e]; simpl; split.
  - eauto.
  - by intros (a' & [= <-] & ?).
  - done.
  - by intros (a' & ? & ?).
Qed.

Lemma fmap_Ok {A B} (r : result A) (f : A → B) b :
  f <$> r = Ok b ↔ ∃ a, r = Ok a ∧ b = f a.
Proof.
  destruct r as [a|e]; simpl; split.
  - intros [= <-]. eauto.
  - by intros (a' & [= <-] & ->).
  - done.
  - by intros (a' & ? & ?).
Qed.

(** ** Points and distances *)

Lemma Point_index_Ok (p : Point) i :
  (i < length p)%nat → Point_index p i = Ok (coord i p).
Proof.
  intros Hi. unfold Point_index, coord.
  destruct (lookup_lt_is_Some_2 p i Hi) as [x ->]. done.
Qed.

Lemma Point_index_Err (p : Point) i :
  (length p ≤ i)%nat → Point_index p i = Err out_of_range.
Proof.
  intros Hi. unfold Point_index. by rewrite lookup_ge_None_2.
Qed.

Lemma distance_loop_Ok (data : list Z) : ∀ (other : Point) i total,
  (i + length data ≤ length other)%nat →
  distance_loop data other i total = Ok (total + sqdist data (drop i other)).
Proof.
  induction data as [|x data IH]; intros other i total Hlen; simpl in *.
  - f_equal. lia.
  - destruct (lookup_lt_is_Some_2 other i) as [y Hy]; [lia|].
    unfold Point_index. rewrite Hy. simpl.
    rewrite IH by lia. rewrite (drop_S _ _ _ Hy). simpl. f_equal. lia.
Qed.

Lemma distance_to_Ok (p q : Point) :
  (length p ≤ length q)%nat → distance_to p q = Ok (sqdist p q).
Proof.
  intros Hlen. unfold distance_to. rewrite distance_loop_Ok by (simpl; lia).
  by rewrite drop_0.
Qed.

Lemma distance_loop_Err (data : list Z) : ∀ (other : Point) i total,
  (i ≤ length other < i + length data)%nat →
  distance_loop data other i total = Err out_of_range.
Proof.
  induction data as [|x data IH]; intros other i total Hlen; simpl in *.
  - lia.
  - unfold Point_index. destruct (other !! i) as [y|] eqn:Hy; simpl; [|done].
    apply lookup_lt_Some in Hy. apply IH. lia.
Qed.

Lemma distance_to_Err (p q : Point) :
  (length q < length p)%nat → distance_to p q = Err out_of_range.
Proof. intros Hlen. apply distance_loop_Err. simpl. lia. Qed.

Lemma sqdist_nonneg (p : list Z) : ∀ q, 0 ≤ sqdist p q.
Proof.
  induction p as [|x p IH]; intros [|y q]; simpl; try done.
  specialize (IH q). pose proof (Z.square_nonneg (x - y)). lia.
Qed.

(** A squared distance is at least the squared difference along any one
    axis. *)
Lemma sqdist_coord (p : list Z) : ∀ q axis,
  (axis < length p)%nat → (axis < length q)%nat →
  (coord axis q - coord axis p) * (coord axis q - coord axis p) ≤ sqdist p q.
Proof.
  induction p as [|x p IH]; intros [|y q] axis Hp Hq; simpl in *; try lia.
  destruct axis as [|axis].
  - unfold coord. simpl. pose proof (sqdist_nonneg p q).
    replace ((y - x) * (y - x)) with ((x - y) * (x - y)) by ring. lia.
  - specialize (IH q axis ltac:(lia) ltac:(lia)).
    unfold coord in *. simpl. pose proof (Z.square_nonneg (x - y)). lia.
Qed.

(** ** Construction *)

Lemma validate_sizes_Some k (pts : list Point) :
  Forall (λ p, length p = k) pts → validate_sizes pts (Some k) = Ok ().
Proof.
  induction 1 as [|p pts Hp _ IH]; simpl; [done|].
  unfold Point_size. rewrite Hp, Nat.eqb_refl. done.
Qed.

Lemma validate_sizes_None k (pts : list Point) :
  Forall (λ p, length p = k) pts → validate_sizes pts None = Ok ().
Proof.
  destruct 1 as [|p pts Hp Hpts]; simpl; [done|].
  unfold Point_size. rewrite Hp. by apply validate_sizes_Some.
Qed.

Lemma validate_sizes_Some_inv (pts : list Point) : ∀ k,
  validate_sizes pts (Some k) = Ok () ∧ Forall (λ p, length p = k) pts ∨
  validate_sizes pts (Some k) = Err assertion_failed ∧
    ¬ Forall (λ p, length p = k) pts.
Proof.
  induction pts as [|p pts IH]; intros k; simpl.
  - left. split; [done | constructor].
  - unfold Point_size. destruct (Nat.eqb_spec (length p) k) as [Hp|Hp].
    + destruct (IH k) as [[-> Hall]|[-> Hno]]; [left|right]; split; try done.
      * by constructor.
      * intros Hall. apply Hno. by inversion Hall.
    + right. split; [done|]. intros Hall. by inversion Hall.
Qed.

Lemma comparator_throws_false k axis (pts : list Point) :
  Forall (λ p, length p = k) pts → (axis < k)%nat →
  comparator_throws axis pts = false.
Proof.
  intros Hall Hax. unfold comparator_throws.
  apply andb_false_iff. right.
  induction Hall as [|p pts Hp _ IH]; simpl; [done|].
  rewrite IH, orb_false_r. unfold Point_size. apply Nat.leb_gt. lia.
Qed.

Section Construction_facts.
Context `{StdSort}.

Lemma std_sort_length axis (l : list Point) :
  length (std_sort axis l) = length l.
Proof. apply Permutation_length, std_sort_perm. Qed.

Lemma std_sort_Forall (P : Point → Prop) axis (l : list Point) :
  Forall P l → Forall P (std_sort axis l).
Proof. intros Hl. by rewrite std_sort_perm. Qed.

Lemma Built_set_parent k this (pts : list Point) depth par par' t :
  Built k this pts depth par (Some t) →
  Built k this pts depth par' (Some (set_parent_ t par')).
Proof. inversion 1; subst. unfold set_parent_. simpl. by constructor. Qed.

(** On a non-empty range of points of one positive dimensionality [k],
    [RecursiveInit] returns a node, and the node is the one [Built]
    describes.  The fuel only has to cover the length of the range. *)
Lemma RecursiveInit__Built k fuel : ∀ this (pts : list Point) depth,
  (length pts ≤ fuel)%nat → pts ≠ [] →
  Forall (λ p, length p = k) pts → (0 < k)%nat →
  ∃ t, RecursiveInit_ fuel this pts depth = Ok t ∧
       Built k this pts depth (own_parent depth) (Some t).
Proof.
  induction fuel as [|fuel IH]; intros this pts depth Hfuel Hne Hdims Hk.
  { destruct pts; simpl in *; [done | lia]. }
  assert (Hval : (if Nat.eqb depth 0 then validate_sizes pts None else Ok ())
                 = Ok ()).
  { destruct (Nat.eqb depth 0); [by eapply validate_sizes_None | done]. }
  cbn [RecursiveInit_]. cbn zeta. rewrite Hval. cbn [mbind result_bind].
  assert (Hfirst : ∃ p0, match pts with
                         | [] => Err undefined_behaviour
                         | p :: _ => Ok p
                         end = Ok p0 ∧ Point_size p0 = k).
  { destruct Hdims as [|p0 ? Hp0 _]; [done|]. by exists p0. }
  destruct Hfirst as (p0 & -> & Hp0). cbn [mbind result_bind].
  rewrite Hp0. destruct (Nat.eqb_spec k 0) as [?|_]; [lia|].
  set (axis := (depth mod k)%nat).
  assert (Hax : (axis < k)%nat) by (apply Nat.mod_upper_bound; lia).
  rewrite (comparator_throws_false k) by done.
  set (sorted := std_sort axis pts).
  set (m := (length pts / 2)%nat).
  assert (Hlen : (0 < length pts)%nat) by (destruct pts; simpl; [done|lia]).
  assert (Hm : (m < length pts)%nat) by (apply Nat.div_lt; lia).
  assert (Hslen : length sorted = length pts) by apply std_sort_length.
  destruct (lookup_lt_is_Some_2 sorted m) as [median Hmed]; [lia|].
  rewrite Hmed. cbn [mbind result_bind].
  assert (Hsdims : Forall (λ p, length p = k) sorted)
    by by apply std_sort_Forall.
  assert (Hchild : ∀ lk (rng : list Point),
    (length rng < length pts)%nat → Forall (λ p, length p = k) rng →
    ∃ c, (if Nat.leb (length rng) 0 then Ok None
          else
            t ← RecursiveInit_ fuel (lk :: this) rng (S depth);
            Ok (Some (set_parent_ t (at_address this))))
         = Ok c ∧ Built k (lk :: this) rng (S depth) (at_address this) c).
  { intros lk rng Hrlen Hrdims.
    destruct (Nat.leb_spec (length rng) 0) as [Hz|Hz].
    - exists None. split; [done|].
      assert (rng = []) as -> by (apply length_zero_iff_nil; lia).
      constructor.
    - destruct (IH (lk :: this) rng (S depth)) as (t & -> & Ht);
        [lia | intros ->; simpl in Hz; lia | done..|].
      eexists. split; [done|]. by eapply Built_set_parent. }
  destruct (Hchild left_link (take m sorted)) as (l & -> & Hl);
    [rewrite length_take; lia | by apply Forall_take |].
  destruct (Hchild right_link (drop (S m) sorted)) as (r & -> & Hr);
    [rewrite length_drop; lia | by apply Forall_drop |].
  cbn [mbind result_bind]. eexists. split; [done|].
  by constructor.
Qed.

Lemma nodes_unfold (t : Tree) :
  nodes t = nodes_of (left_child_ t) ++ t :: nodes_of (right_child_ t).
Proof. by destruct t as [[l|] [r|] par a d p]. Qed.

Lemma points_unfold (t : Tree) :
  points t = points_of (left_child_ t) ++ split_point t :: points_of (right_child_ t).
Proof. unfold points, points_of. by rewrite nodes_unfold, fmap_app. Qed.

Lemma Built_None k this (pts : list Point) depth par :
  Built k this pts depth par None → pts = [].
Proof. by inversion 1. Qed.

Lemma Built_Some k this (pts : list Point) depth par t :
  Built k this pts depth par (Some t) → pts ≠ [].
Proof. by inversion 1. Qed.

Lemma sorted_middle axis (pts : list Point) median :
  std_sort axis pts !! (length pts / 2)%nat = Some median →
  take (length pts / 2)%nat (std_sort axis pts) ++
    median :: drop (S (length pts / 2)%nat) (std_sort axis pts) ≡ₚ pts.
Proof. intros Hmed. rewrite take_drop_middle by done. apply std_sort_perm. Qed.

(** The tree stores exactly the points of the range. *)
Lemma Built_points k this (pts : list Point) depth par o :
  Built k this pts depth par o → points_of o ≡ₚ pts.
Proof.
  induction 1 as [|this pts depth par median l r Hne Hmed _ IHl _ IHr]; [done|].
  change (points_of (Some ?t)) with (points t).
  rewrite points_unfold. simpl. rewrite IHl, IHr. by apply sorted_middle.
Qed.

Lemma Built_size k this (pts : list Point) depth par o :
  Built k this pts depth par o → length (nodes_of o) = length pts.
Proof.
  intros HB. apply Built_points, Permutation_length in HB.
  rewrite <- HB. unfold points_of. by rewrite length_fmap.
Qed.

(** [Built] relates a range and a depth to one tree only. *)
Lemma Built_functional k this (pts : list Point) depth par o1 :
  Built k this pts depth par o1 →
  ∀ o2, Built k this pts depth par o2 → o1 = o2.
Proof.
  induction 1 as [|this pts depth par median l r Hne Hmed _ IHl _ IHr];
    intros o2 H2; inversion H2; subst; try done.
  f_equal. f_equal; [by apply IHl | by apply IHr | congruence].
Qed.

(** A property of single nodes that every construction step establishes
    holds of all nodes. *)
Lemma Built_Forall_nodes k (P : Tree → Prop) :
  (∀ this (pts : list Point) depth par median l r,
     pts ≠ [] →
     std_sort (depth mod k)%nat pts !! (length pts / 2)%nat = Some median →
     Built k (left_link :: this)
       (take (length pts / 2)%nat (std_sort (depth mod k)%nat pts))
       (S depth) (at_address this) l →
     Built k (right_link :: this)
       (drop (S (length pts / 2)%nat) (std_sort (depth mod k)%nat pts))
       (S depth) (at_address this) r →
     P (mkTree l r par (depth mod k)%nat k median)) →
  ∀ this (pts : list Point) depth par o,
    Built k this pts depth par o → Forall P (nodes_of o).
Proof.
  intros step this pts depth par o.
  induction 1 as [|this pts depth par median l r Hne Hmed Hl IHl Hr IHr]; [constructor|].
  change (nodes_of (Some ?t)) with (nodes t). rewrite nodes_unfold. simpl.
  apply Forall_app. split; [done|]. constructor; [|done]. by apply (step this pts).
Qed.

Lemma Built_splits k this (pts : list Point) depth par o :
  Built k this pts depth par o → Forall splits (nodes_of o).
Proof.
  apply Built_Forall_nodes. clear. intros this pts depth par median l r _ Hmed Hl Hr.
  pose proof (std_sort_sorted (depth mod k)%nat pts) as Hsorted.
  rewrite <- (take_drop_middle _ _ _ Hmed) in Hsorted.
  split; simpl; intros x Hx.
  - apply Built_points in Hl. rewrite Hl in Hx.
    apply (StronglySorted_app_1_elem_of (axis_le (depth mod k)%nat) _ _ x median Hsorted);
      [done|]. apply elem_of_cons. by left.
  - apply Built_points in Hr. rewrite Hr in Hx.
    apply StronglySorted_app_1_r, StronglySorted_cons in Hsorted.
    destruct Hsorted as [Hall _]. rewrite Forall_forall in Hall. by apply Hall, list_elem_of_In.
Qed.

Lemma Built_left_first k this (pts : list Point) depth par o :
  Built k this pts depth par o → Forall left_first (nodes_of o).
Proof.
  apply Built_Forall_nodes. clear. intros this pts depth par median l r Hne Hmed Hl Hr.
  unfold left_first. simpl. intros [tr ->].
  destruct l as [tl|]; [done|].
  apply Built_None in Hl. apply Built_Some in Hr. exfalso. apply Hr.
  apply (f_equal length) in Hl. rewrite length_take, std_sort_length in Hl.
  apply length_zero_iff_nil. rewrite length_drop, std_sort_length.
  cbn [length] in Hl. half_facts (length pts). lia.
Qed.

Lemma Built_dims k this (pts : list Point) depth par o :
  (0 < k)%nat → Built k this pts depth par o →
  Forall (λ n, dims_ n = k ∧ (split_axis_ n < k)%nat) (nodes_of o).
Proof.
  intros Hk. apply Built_Forall_nodes. intros; simpl. split; [done|].
  apply Nat.mod_upper_bound. lia.
Qed.

Lemma Built_point_sizes k this (pts : list Point) depth par o :
  Forall (λ p, length p = k) pts → Built k this pts depth par o →
  Forall (λ p, length p = k) (points_of o).
Proof. intros Hall HB. apply Built_points in HB. by rewrite HB. Qed.

Lemma log2_up_step n :
  (0 < n)%nat → Nat.log2_up (n + 1) = S (Nat.log2_up (n / 2 + 1)).
Proof.
  intros Hn. rewrite Nat.log2_up_eqn by lia.
  replace (Nat.pred (n + 1)) with n by lia. f_equal.
  destruct (Nat.eq_dec (n / 2)%nat 0%nat) as [Hz|Hnz].
  - apply Nat.div_small_iff in Hz; [|lia].
    assert (n = 1)%nat as -> by lia. done.
  - rewrite Nat.log2_up_eqn by lia.
    replace (Nat.pred (n / 2 + 1)) with (n / 2)%nat by lia.
    pose proof (Nat.div_mod_eq n 2) as Hdm.
    pose proof (Nat.mod_upper_bound n 2 ltac:(lia)) as Hmod.
    destruct (Nat.eq_dec (n mod 2)%nat 0%nat) as [E|E].
    + rewrite Hdm at 1. rewrite E, Nat.add_0_r. apply Nat.log2_double. lia.
    + rewrite Hdm at 1. replace (n mod 2)%nat with 1%nat by lia.
      apply Nat.log2_succ_double. lia.
Qed.

(** The number of levels is the ceiling of the binary logarithm of the
    number of points plus one. *)
Lemma Built_height k this (pts : list Point) depth par o :
  Built k this pts depth par o → height_of o = Nat.log2_up (length pts + 1).
Proof.
  induction 1 as [|this pts depth par median l r Hne Hmed _ IHl _ IHr]; [done|].
  assert (0 < length pts)%nat as Hlen by (destruct pts; simpl; [done|lia]).
  assert (length pts / 2 < length pts)%nat as Hm by (apply Nat.div_lt; lia).
  rewrite length_take, std_sort_length in IHl.
  rewrite length_drop, std_sort_length in IHr.
  rewrite Nat.min_l in IHl by lia.
  change (height_of (Some ?t)) with (height t). cbn [height left_child_ right_child_].
  change (match l with Some t => height t | None => O end) with (height_of l).
  change (match r with Some t => height t | None => O end) with (height_of r).
  rewrite IHl, IHr, (log2_up_step (length pts)) by done. f_equal.
  apply Nat.max_l, Nat.log2_up_le_mono. half_facts (length pts). lia.
Qed.

(** Construction succeeds on every non-empty range of points of one
    positive dimensionality. *)
Lemma Tree_new_Built k (pts : list Point) :
  pts ≠ [] → Forall (λ p, length p = k) pts → (0 < k)%nat →
  ∃ t, Tree_new pts = Ok t ∧ Built k [] pts 0 nullptr (Some t).
Proof. intros. apply RecursiveInit__Built; [lia | done..]. Qed.

Lemma RecursiveInit_Built k this (pts : list Point) depth :
  pts ≠ [] → Forall (λ p, length p = k) pts → (0 < k)%nat →
  ∃ t, RecursiveInit this pts depth = Ok t ∧
       Built k this pts depth (own_parent depth) (Some t).
Proof. intros. apply RecursiveInit__Built; [lia | done..]. Qed.
End Construction_facts.


(** ** Addresses and the nodes they lead to *)

Lemma ptr_eqb_true p q : ptr_eqb p q = true ↔ p = q.
Proof. unfold ptr_eqb. apply bool_decide_eq_true. Qed.

Lemma ptr_eqb_false p q : ptr_eqb p q = false ↔ p ≠ q.
Proof. unfold ptr_eqb. apply bool_decide_eq_false. Qed.

Lemma node_at_child root a lk t c :
  node_at root a = Some t → child lk t = Some c →
  node_at root (lk :: a) = Some c.
Proof. intros Ht Hc. simpl. by rewrite Ht. Qed.

Lemma node_at_parent root lk a c :
  node_at root (lk :: a) = Some c →
  ∃ t, node_at root a = Some t ∧ child lk t = Some c.
Proof. simpl. destruct (node_at root a) as [t|]; [eauto | done]. Qed.

Lemma node_at_suffix root pre a :
  is_Some (node_at root (pre ++ a)) → is_Some (node_at root a).
Proof.
  induction pre as [|lk pre IH]; [done|]. simpl.
  destruct (node_at root (pre ++ a)); [eauto | by intros [? ?]].
Qed.

(** Following an address from the root: the first link is the last element
    of the address. *)
Lemma node_at_snoc root lk a :
  node_at root (a ++ [lk]) = child lk root ≫= λ c, node_at c a.
Proof.
  induction a as [|lk' a IH]; simpl.
  - by destruct (child lk root).
  - rewrite IH. by destruct (child lk root).
Qed.

Lemma load_at root a t :
  node_at root a = Some t → load root (at_address a) = Ok t.
Proof. intros Ht. simpl. by rewrite Ht. Qed.

Lemma height_unfold t :
  height t = S (height_of (left_child_ t) `max` height_of (right_child_ t)).
Proof. by destruct t as [[l|] [r|] par a d p]. Qed.

Lemma height_le_nodes (t : Tree) : (height t ≤ length (nodes t))%nat.
Proof.
  induction t as [t IHl IHr] using Tree_ind.
  rewrite height_unfold, nodes_unfold, length_app. cbn [length].
  assert (height_of (left_child_ t) ≤ length (nodes_of (left_child_ t)))%nat.
  { destruct (left_child_ t) as [l|]; simpl; [by apply IHl | lia]. }
  assert (height_of (right_child_ t) ≤ length (nodes_of (right_child_ t)))%nat.
  { destruct (right_child_ t) as [r|]; simpl; [by apply IHr | lia]. }
  lia.
Qed.

Lemma leftmost_unfold t a :
  leftmost t a =
  match left_child_ t with
  | Some l => leftmost l (left_link :: a)
  | None => a
  end.
Proof. by destruct t. Qed.

Lemma deepest_leftmost_unfold t a :
  deepest_leftmost t a =
  match left_child_ t with
  | Some l => deepest_leftmost l (left_link :: a)
  | None =>
      match right_child_ t with
      | Some r => deepest_leftmost r (right_link :: a)
      | None => a
      end
  end.
Proof. by destruct t. Qed.

Lemma node_addrs_unfold t a :
  node_addrs t a =
  child_addrs left_link a (left_child_ t) ++
  a :: child_addrs right_link a (right_child_ t).
Proof. by destruct t. Qed.

(** ** The iterator *)

Section Iterator_facts.
Variable root : Tree.
Hypothesis Hlinked : linked root.

(** The loop of [operator++] along [parent_]. *)
Lemma climb_climbed (p : list link) : ∀ t fuel,
  node_at root p = Some t → (length p < fuel)%nat →
  climb fuel root p (parent_ t) = Ok (climbed p).
Proof.
  induction p as [|lk a IH]; intros t fuel Hp Hfuel;
    (destruct fuel as [|fuel]; [simpl in Hfuel; lia|]);
    rewrite (Hlinked _ t Hp); [done|].
  cbn [climb]. destruct (node_at_parent _ _ _ _ Hp) as (pn & Hpn & Hc).
  rewrite (load_at _ _ _ Hpn). cbn [mbind result_bind].
  destruct lk; cbn [climbed].
  - assert (ptr_eqb (child_ptr right_link a pn) (at_address (left_link :: a))
            = false) as ->; [|done].
    apply ptr_eqb_false. unfold child_ptr. by destruct (child right_link pn).
  - assert (ptr_eqb (child_ptr right_link a pn) (at_address (right_link :: a))
            = true) as ->.
    { apply ptr_eqb_true. unfold child_ptr. by rewrite Hc. }
    apply IH; [done | simpl in Hfuel; lia].
Qed.

Lemma climbed_cases (p : list link) :
  climbed p = ([], nullptr) ∧ next_up p = nullptr ∨
  ∃ pre a, p = pre ++ left_link :: a ∧
           climbed p = (left_link :: a, at_address a) ∧
           next_up p = at_address a.
Proof.
  induction p as [|[] a IH]; simpl.
  - by left.
  - right. by exists [], a.
  - destruct IH as [?|(pre & a' & -> & ? & ?)]; [by left|].
    right. by exists (right_link :: pre), a'.
Qed.

(** [operator++] at a node without right child. *)
Lemma operator_inc_ascend (p : list link) t bound :
  node_at root p = Some t → right_child_ t = None → (length p < bound)%nat →
  operator_inc bound root (at_address p) = Ok (next_up p).
Proof.
  intros Hp Hr Hbound. unfold operator_inc.
  rewrite (load_at _ _ _ Hp). cbn [mbind result_bind]. rewrite Hr.
  rewrite (climb_climbed p t) by done. cbn [mbind result_bind].
  destruct (climbed_cases p) as [[-> ->]|(pre & a & Hpre & -> & ->)]; [done|].
  destruct (node_at_suffix root pre (left_link :: a)) as [n Hn].
  { rewrite <- Hpre. by exists t. }
  rewrite (load_at _ _ _ Hn). cbn [mbind result_bind].
  assert (ptr_eqb (child_ptr right_link (left_link :: a) n) (at_address a)
          = false) as ->; [|done].
  apply ptr_eqb_false. unfold child_ptr.
  destruct (child right_link n); [|done].
  intros [= E]. apply (f_equal length) in E. simpl in E. lia.
Qed.

(** [operator++] at a node with a right child. *)
Lemma operator_inc_right (p : list link) t r bound :
  node_at root p = Some t → right_child_ t = Some r →
  operator_inc bound root (at_address p)
  = Ok (at_address (leftmost r (right_link :: p))).
Proof.
  intros Hp Hr. unfold operator_inc.
  rewrite (load_at _ _ _ Hp). cbn [mbind result_bind]. by rewrite Hr.
Qed.

Lemma run_body_app {St} (body : ptr → St → result St) ps1 ps2 s :
  run_body body (ps1 ++ ps2) s = run_body body ps1 s ≫= run_body body ps2.
Proof.
  revert s. induction ps1 as [|p ps1 IH]; intros s; simpl; [done|].
  destruct (body p s) as [s'|e]; simpl; [apply IH | done].
Qed.

Lemma length_nodes_pos t : (0 < length (nodes t))%nat.
Proof. rewrite nodes_unfold, length_app. simpl. lia. Qed.

(** Started at the leftmost node of a subtree, the loop runs its body on the
    nodes of the subtree in order and goes on where [operator++] leaves the
    subtree. *)
Lemma for_range_subtree {St} (body : ptr → St → result St) bound (t : Tree) :
  ∀ a fuel s,
    node_at root a = Some t → (length a + height t ≤ bound)%nat →
    for_range_ bound (length (nodes t) + fuel) root
      (at_address (leftmost t a)) body s =
    run_body body (at_address <$> node_addrs t a) s
    ≫= for_range_ bound fuel root (next_up a) body.
Proof.
  induction t as [t IHl IHr] using Tree_ind. intros a fuel s Ha Hbound.
  rewrite nodes_unfold, length_app, node_addrs_unfold, leftmost_unfold.
  rewrite height_unfold in Hbound. cbn [length].
  (* the node itself and its right subtree *)
  assert (Hself : ∀ s,
    for_range_ bound (S (length (nodes_of (right_child_ t)) + fuel)) root
      (at_address a) body s =
    run_body body
      (at_address a :: (at_address <$> child_addrs right_link a (right_child_ t))) s
    ≫= for_range_ bound fuel root (next_up a) body).
  { intros s'. cbn [for_range_ run_body].
    replace (ptr_eqb (at_address a) end_) with false by done.
    destruct (body (at_address a) s') as [s''|e]; cbn [mbind result_bind]; [|done].
    destruct (right_child_ t) as [r|] eqn:Hr.
    - rewrite (operator_inc_right a t r) by done. cbn [mbind result_bind].
      simpl in Hbound.
      rewrite (IHr r) by (first [done | by apply (node_at_child _ _ _ t) | simpl; lia]).
      done.
    - rewrite (operator_inc_ascend a t) by (first [done | lia]).
      cbn [mbind result_bind]. done. }
  destruct (left_child_ t) as [l|] eqn:Hl.
  - replace (length (nodes_of (Some l)) + S (length (nodes_of (right_child_ t))) + fuel)%nat
      with (length (nodes l) + S (length (nodes_of (right_child_ t)) + fuel))%nat
      by (simpl; lia).
    simpl in Hbound.
    rewrite (IHl l) by (first [done | by apply (node_at_child _ _ _ t) | simpl; lia]).
    cbn [child_addrs next_up]. rewrite fmap_app, run_body_app, fmap_cons.
    destruct (run_body body (at_address <$> node_addrs l _) s) as [s'|e];
      simpl; [|done].
    apply Hself.
  - apply Hself.
Qed.
End Iterator_facts.

(** On a tree in which every node with a right child has a left child, the
    descent of [TreeIterator(nodeptr)] follows left links only. *)
Lemma deepest_leftmost_leftmost (t : Tree) : ∀ a,
  Forall left_first (nodes t) → deepest_leftmost t a = leftmost t a.
Proof.
  induction t as [t IHl IHr] using Tree_ind. intros a Hlf.
  rewrite nodes_unfold in Hlf. apply Forall_app in Hlf as [Hl Hlf].
  apply Forall_cons_1 in Hlf as [Ht Hr].
  rewrite deepest_leftmost_unfold, leftmost_unfold.
  destruct (left_child_ t) as [l|] eqn:El; [by apply IHl|].
  destruct (right_child_ t) as [r|] eqn:Er; [|done].
  destruct Ht as [? E]; [by rewrite Er|]. by rewrite El in E.
Qed.

Lemma for_range_end {St} (body : ptr → St → result St) bound fuel root s :
  for_range_ bound fuel root nullptr body s = Ok s.
Proof. by destruct fuel. Qed.

Lemma begin_leftmost (t : Tree) :
  Forall left_first (nodes t) → begin t = Ok (at_address (leftmost t [])).
Proof.
  intros Hlf. unfold begin, TreeIterator_new. simpl.
  by rewrite deepest_leftmost_leftmost.
Qed.

(** The whole loop [for (it = begin(); it != end(); ++it)]. *)
Lemma for_range_whole {St} (body : ptr → St → result St) (t : Tree) fuel s :
  linked t → Forall left_first (nodes t) → (length (nodes t) ≤ fuel)%nat →
  for_range fuel t body s = run_body body (at_address <$> node_addrs t []) s.
Proof.
  intros Hlinked Hlf Hfuel. unfold for_range.
  rewrite begin_leftmost by done. cbn [mbind result_bind].
  replace fuel with (length (nodes t) + (fuel - length (nodes t)))%nat at 2 by lia.
  rewrite (for_range_subtree t Hlinked); [|done|].
  - cbn [next_up]. destruct (run_body _ _ _); simpl; [|done].
    apply for_range_end.
  - pose proof (height_le_nodes t). simpl. lia.
Qed.

(** ** The enumeration of addresses *)

(** The addresses listed for a subtree lead to its nodes, in order. *)
Lemma node_addrs_nodes root (t : Tree) : ∀ a,
  node_at root a = Some t →
  node_at root <$> node_addrs t a = Some <$> nodes t.
Proof.
  induction t as [t IHl IHr] using Tree_ind. intros a Ha.
  rewrite node_addrs_unfold, nodes_unfold, !fmap_app, !fmap_cons, Ha.
  f_equal; [|f_equal].
  - destruct (left_child_ t) as [l|] eqn:Hl; simpl; [|done].
    apply IHl; [done|]. by apply (node_at_child _ _ _ t).
  - destruct (right_child_ t) as [r|] eqn:Hr; simpl; [|done].
    apply IHr; [done|]. by apply (node_at_child _ _ _ t).
Qed.

Lemma node_addrs_length (t : Tree) a : length (node_addrs t a) = length (nodes t).
Proof.
  revert a. induction t as [t IHl IHr] using Tree_ind. intros a.
  rewrite node_addrs_unfold, nodes_unfold, !length_app. cbn [length].
  f_equal; [|f_equal].
  - destruct (left_child_ t) as [l|]; simpl; [by apply IHl | done].
  - destruct (right_child_ t) as [r|]; simpl; [by apply IHr | done].
Qed.

Lemma load_addrs root (addrs : list (list link)) (ns : list Tree) :
  node_at root <$> addrs = Some <$> ns →
  load root <$> (at_address <$> addrs) = Ok <$> ns.
Proof.
  revert ns. induction addrs as [|a addrs IH]; intros [|n ns] Hns; try done.
  injection Hns as Hn Hns. rewrite !fmap_cons. f_equal; [|by apply IH].
  by apply load_at.
Qed.

(** Every address of a subtree extends the address of the subtree's root by
    the address relative to that root. *)
Lemma node_addrs_elem (t : Tree) : ∀ a a',
  a' ∈ node_addrs t a ↔ ∃ rel, a' = rel ++ a ∧ is_Some (node_at t rel).
Proof.
  induction t as [t IHl IHr] using Tree_ind. intros a a'.
  rewrite node_addrs_unfold, elem_of_app, elem_of_cons.
  assert (Hchild : ∀ lk, (∀ c, child lk t = Some c → ∀ a a',
            a' ∈ node_addrs c a ↔
            ∃ rel, a' = rel ++ a ∧ is_Some (node_at c rel)) →
    a' ∈ child_addrs lk a (child lk t) ↔
    ∃ rel, a' = (rel ++ [lk]) ++ a ∧ is_Some (node_at t (rel ++ [lk]))).
  { intros lk IH. setoid_rewrite node_at_snoc. setoid_rewrite <- app_assoc.
    destruct (child lk t) as [c|]; simpl.
    - by apply (IH c eq_refl).
    - rewrite elem_of_nil. split; [done|]. by intros (? & _ & [? ?]). }
  rewrite (Hchild left_link IHl), (Hchild right_link IHr). split.
  - intros [(rel & -> & ?)|[->|(rel & -> & ?)]]; eauto.
    exists []. split; [done|]. by eexists.
  - intros (rel & -> & Hrel).
    destruct rel as [|lk' rel' _] using rev_ind; [by right; left|].
    destruct lk'; [left | right; right]; by exists rel'.
Qed.

Lemma node_addrs_root (t : Tree) (a : list link) :
  a ∈ node_addrs t [] ↔ is_Some (node_at t a).
Proof.
  rewrite node_addrs_elem. split.
  - intros (rel & -> & ?). by rewrite app_nil_r.
  - intros ?. exists a. by rewrite app_nil_r.
Qed.

(** The address one link up from a listed address is listed. *)
Lemma node_addrs_up (t : Tree) lk (a : list link) :
  lk :: a ∈ node_addrs t [] → a ∈ node_addrs t [].
Proof.
  rewrite !node_addrs_root. intros [c Hc].
  apply node_at_parent in Hc as (n & Hn & _). by exists n.
Qed.

Lemma child_addrs_rel lk (a a' : list link) c :
  a' ∈ child_addrs lk a c → ∃ rel, a' = rel ++ lk :: a.
Proof.
  destruct c as [c'|]; simpl; [|by intros ?%elem_of_nil].
  rewrite node_addrs_elem. intros (rel & -> & _). by exists rel.
Qed.

(** No address is listed twice. *)
Lemma node_addrs_NoDup (t : Tree) : ∀ a, NoDup (node_addrs t a).
Proof.
  induction t as [t IHl IHr] using Tree_ind. intros a.
  rewrite node_addrs_unfold.
  apply list.NoDup_app. split; [|split].
  - destruct (left_child_ t) as [l|]; simpl; [by apply IHl | constructor].
  - intros a' [rel ->]%child_addrs_rel Hin.
    apply elem_of_cons in Hin as [Hin|[rel' Hin]%child_addrs_rel].
    + apply (f_equal length) in Hin.
      rewrite length_app, length_cons in Hin. lia.
    + apply app_inj_2 in Hin as [_ [=]]. done.
  - apply list.NoDup_cons. split.
    + intros [rel Hin]%child_addrs_rel.
      apply (f_equal length) in Hin.
      rewrite length_app, length_cons in Hin. lia.
    + destruct (right_child_ t) as [r|]; simpl; [by apply IHr | constructor].
Qed.

(** The address of the leftmost node extends the address of the root of the
    subtree by left links only. *)
Lemma leftmost_address (t : Tree) : ∀ a,
  ∃ n, leftmost t a = replicate n left_link ++ a.
Proof.
  induction t as [t IHl _] using Tree_ind. intros a.
  rewrite leftmost_unfold. destruct (left_child_ t) as [l|].
  - destruct (IHl l eq_refl (left_link :: a)) as [n ->].
    exists (S n). rewrite cons_middle, app_assoc, <- replicate_cons_app. done.
  - by exists O.
Qed.

Lemma run_body_record_visit ps : ∀ seen,
  run_body record_visit ps seen = Ok (seen ++ ps).
Proof.
  induction ps as [|p ps IH]; intros seen; simpl.
  - by rewrite app_nil_r.
  - rewrite IH. by rewrite <- app_assoc.
Qed.

Section Linked_facts.
Context `{StdSort}.

(** Construction leaves in every [parent_] the address of the parent. *)
Lemma Built_parents k this (pts : list Point) depth par o :
  Built k this pts depth par o →
  ∀ t, o = Some t → ∀ rel n, node_at t rel = Some n →
    parent_ n = match rel with
                | [] => par
                | _ :: rel' => at_address (rel' ++ this)
                end.
Proof.
  induction 1 as [|this pts depth par median l r Hne Hmed _ IHl _ IHr];
    [done|].
  intros t [= <-] rel n Hn.
  destruct rel as [|lk rel' _] using rev_ind.
  { by injection Hn as <-. }
  rewrite node_at_snoc in Hn.
  assert (Hchild : ∃ c, child lk (mkTree l r par (depth mod k)%nat k median)
                        = Some c ∧ node_at c rel' = Some n).
  { destruct (child lk _) as [c|]; [by exists c | done]. }
  destruct Hchild as (c & Hc & Hn').
  assert (parent_ n = match rel' with
                      | [] => at_address this
                      | _ :: rel'' => at_address (rel'' ++ lk :: this)
                      end) as ->.
  { destruct lk; simpl in Hc; [by apply (IHl c) | by apply (IHr c)]. }
  destruct rel' as [|lk' rel'']; simpl; [done|].
  by rewrite <- app_assoc.
Qed.

Lemma Built_linked k (pts : list Point) t :
  Built k [] pts 0 nullptr (Some t) → linked t.
Proof.
  intros HB a n Hn.
  rewrite (Built_parents _ _ _ _ _ _ HB t eq_refl a n Hn).
  destruct a; [done|]. by rewrite app_nil_r.
Qed.
End Linked_facts.
(** ** Scanning for the nearest point *)

Section Improves.
Context {B : Type} (is_at : B → Point → Prop) (q : Point).

Lemma improves_skip (pts : list Point) (b : B * Z) :
  (∀ p, p ∈ pts → b.2 ≤ sqdist p q) → improves is_at pts q b b.
Proof. intros Hall. split; [lia|]. split; [done|]. by left. Qed.

Lemma improves_nil (b : B * Z) : improves is_at [] q b b.
Proof. apply improves_skip. by intros p ?%elem_of_nil. Qed.

Lemma improves_trans (pts1 pts2 : list Point) (b0 b1 b2 : B * Z) :
  improves is_at pts1 q b0 b1 → improves is_at pts2 q b1 b2 →
  improves is_at (pts1 ++ pts2) q b0 b2.
Proof.
  intros (Hle1 & Hall1 & Hb1) (Hle2 & Hall2 & Hb2). split; [lia|]. split.
  - intros p [Hp|Hp]%elem_of_app; [|by apply Hall2].
    specialize (Hall1 p Hp). lia.
  - destruct Hb2 as [->|(p & Hp & ? & ? & ?)].
    + destruct Hb1 as [->|(p & Hp & ? & ? & ?)]; [by left|].
      right. exists p. rewrite elem_of_app. eauto.
    + right. exists p. rewrite elem_of_app. split; [eauto|].
      repeat split; [done..|lia].
Qed.

Lemma improves_equiv (pts pts' : list Point) (b b' : B * Z) :
  (∀ p, p ∈ pts ↔ p ∈ pts') →
  improves is_at pts q b b' → improves is_at pts' q b b'.
Proof.
  intros Heq (Hle & Hall & Hb). split; [done|]. split.
  - intros p Hp. by apply Hall, Heq.
  - destruct Hb as [->|(p & Hp & ?)]; [by left|].
    right. exists p. by rewrite <- Heq.
Qed.

(** One comparison [if (dist < best_dist)] with the distance of [p]. *)
Lemma improves_visit (p : Point) (bp : B) (b : B * Z) :
  is_at bp p →
  improves is_at [p] q b
    (if sqdist p q <? b.2 then (bp, sqdist p q) else b).
Proof.
  intros Hat. destruct (Z.ltb_spec (sqdist p q) b.2) as [Hlt|Hge].
  - split; [simpl; lia|]. split.
    + intros p' ->%list_elem_of_singleton. simpl. lia.
    + right. exists p. rewrite list_elem_of_singleton. done.
  - apply improves_skip. by intros p' ->%list_elem_of_singleton.
Qed.
End Improves.

Lemma findNN__unfold (t : Tree) (q : Point) (st : search_state) :
  findNN_ t q st =
  let local_point := split_point t in
  let st := mkState (best_point st) (best_dist st) (calls st ++ [local_point]) in
  local_dist ← distance_to local_point q;
  let st := if local_dist <? best_dist st
            then mkState local_point local_dist (calls st) else st in
  r ← Point_index q (split_axis_ t);
  l ← Point_index local_point (split_axis_ t);
  let d := r - l in
  st ← search_child q (if 0 <? d then right_child_ t else left_child_ t) st;
  if d * d <? best_dist st
  then search_child q (if 0 <? d then left_child_ t else right_child_ t) st
  else Ok st.
Proof. by destruct t. Qed.

(** The points of a subtree all lie on one side of the split of its parent,
    so a query on the other side is at least the distance of the splitting
    plane away from each of them. *)
Lemma far_side_bound (t : Tree) (q x : Point) k :
  splits t → (split_axis_ t < k)%nat → length q = k → length x = k →
  let d := coord (split_axis_ t) q - coord (split_axis_ t) (split_point t) in
  x ∈ points_of (if 0 <? d then left_child_ t else right_child_ t) →
  d * d ≤ sqdist x q.
Proof.
  intros [Hl Hr] Hax Hq Hx d Hin.
  pose proof (sqdist_coord x q (split_axis_ t) ltac:(lia) ltac:(lia)) as Hc.
  destruct (Z.ltb_spec 0 d) as [Hd|Hd].
  - apply Hl in Hin. unfold d in *. nia.
  - apply Hr in Hin. unfold d in *. nia.
Qed.

Section Pruned_search.
Variable k : nat.
Variable q : Point.
Hypothesis Hq : length q = k.

Lemma searchable_children (t : Tree) :
  searchable k (Some t) →
  searchable k (left_child_ t) ∧ searchable k (right_child_ t) ∧
  splits t ∧ (split_axis_ t < k)%nat ∧ length (split_point t) = k.
Proof.
  unfold searchable, points_of. simpl. rewrite nodes_unfold, fmap_app, fmap_cons.
  rewrite !Forall_app, !list.Forall_cons. tauto.
Qed.

(** The pruned search of a subtree leaves the best pair as a scan of all
    points of the subtree would. *)
Lemma findNN__improves (t : Tree) : ∀ st,
  searchable k (Some t) →
  ∃ st', findNN_ t q st = Ok st' ∧
         improves eq (points t) q (best st) (best st').
Proof.
  induction t as [t IHl IHr] using Tree_ind. intros st Hs.
  destruct (searchable_children t Hs) as (Hsl & Hsr & Hsplit & Hax & Hp).
  assert (Hchild : ∀ c st, (c = left_child_ t ∨ c = right_child_ t) →
    ∃ st', search_child q c st = Ok st' ∧
           improves eq (points_of c) q (best st) (best st')).
  { intros [c|] st0 Hc; simpl.
    - destruct Hc as [Hc|Hc]; [apply IHl | apply IHr]; try done;
        by rewrite Hc.
    - exists st0. split; [done|]. apply improves_nil. }
  rewrite findNN__unfold. cbn zeta.
  rewrite distance_to_Ok by lia. cbn [mbind result_bind].
  rewrite !Point_index_Ok by lia. cbn [mbind result_bind].
  set (p := split_point t) in *. set (a := split_axis_ t) in *.
  set (d := coord a q - coord a p).
  set (st0 := mkState (best_point st) (best_dist st) (calls st ++ [p])).
  set (st1 := if sqdist p q <? best_dist st0
              then mkState p (sqdist p q) (calls st0) else st0).
  assert (H1 : improves eq [p] q (best st) (best st1)).
  { pose proof (improves_visit eq q p p (best st) eq_refl) as Hv.
    unfold st1. simpl in *. by destruct (sqdist p q <? best_dist st). }
  destruct (Hchild (if 0 <? d then right_child_ t else left_child_ t) st1)
    as (st2 & -> & H2); [destruct (0 <? d); auto|].
  cbn [mbind result_bind].
  assert (H3 : ∃ st3,
    (if d * d <? best_dist st2
     then search_child q (if 0 <? d then left_child_ t else right_child_ t) st2
     else Ok st2) = Ok st3 ∧
    improves eq (points_of (if 0 <? d then left_child_ t else right_child_ t))
      q (best st2) (best st3)).
  { destruct (Z.ltb_spec (d * d) (best_dist st2)) as [Hlt|Hge].
    - apply Hchild. destruct (0 <? d); auto.
    - exists st2. split; [done|]. apply improves_skip. intros x Hx. simpl.
      assert (length x = k) as Hxk.
      { destruct (0 <? d); [destruct Hsl as (_ & _ & Hall)
                           | destruct Hsr as (_ & _ & Hall)];
          rewrite list.Forall_forall in Hall; by apply Hall. }
      pose proof (far_side_bound t q x k Hsplit Hax Hq Hxk Hx) as Hfar.
      fold a p d in Hfar. lia. }
  destruct H3 as (st3 & -> & H3). exists st3. split; [done|].
  pose proof (improves_trans _ _ _ _ _ _ _ (improves_trans _ _ _ _ _ _ _ H1 H2) H3)
    as Hall.
  eapply improves_equiv; [|exact Hall].
  intros x. rewrite points_unfold. fold p.
  rewrite !elem_of_app, !elem_of_cons, elem_of_nil.
  destruct (0 <? d); tauto.
Qed.
End Pruned_search.

Lemma deref_at root (a : list link) n :
  node_at root a = Some n → deref root (at_address a) = Ok (split_point n).
Proof. intros Hn. unfold deref. by rewrite (load_at _ _ _ Hn). Qed.

Lemma brute_force_body_Ok tree (q : Point) (a : list link) n
    (b : option Point * Z) :
  node_at tree a = Some n → (length (split_point n) ≤ length q)%nat →
  brute_force_body tree q (at_address a) b =
  Ok (if sqdist (split_point n) q <? b.2
      then (Some (split_point n), sqdist (split_point n) q) else b).
Proof.
  intros Hn Hlen. unfold brute_force_body.
  rewrite (deref_at _ _ _ Hn). cbn [mbind result_bind].
  rewrite distance_to_Ok by done. cbn [mbind result_bind].
  by destruct (_ <? _).
Qed.

(** The brute-force loop over any list of addresses of nodes leaves the best
    pair as a scan of the nodes' points does. *)
Lemma brute_force_scan tree (q : Point) k (addrs : list (list link)) :
  ∀ (ns : list Tree) b,
  node_at tree <$> addrs = Some <$> ns →
  length q = k → Forall (λ n, length (split_point n) = k) ns →
  ∃ b', run_body (brute_force_body tree q) (at_address <$> addrs) b = Ok b' ∧
        improves (λ bp p, bp = Some p) (split_point <$> ns) q b b'.
Proof.
  induction addrs as [|a addrs IH]; intros [|n ns] b Hns Hq Hall; try done.
  - exists b. split; [done|]. apply improves_nil.
  - injection Hns as Hn Hns.
    apply Forall_cons_1 in Hall as [Hp Hall].
    rewrite fmap_cons. cbn [run_body].
    rewrite (brute_force_body_Ok tree q a n) by (first [done | lia]).
    cbn [mbind result_bind].
    set (b1 := if sqdist (split_point n) q <? b.2
               then (Some (split_point n), sqdist (split_point n) q) else b).
    assert (H1 : improves (λ bp p, bp = Some p) [split_point n] q b b1)
      by by apply improves_visit.
    destruct (IH ns b1 Hns Hq Hall) as (b' & Hrun & H2).
    exists b'. split; [done|].
    rewrite fmap_cons. by apply (improves_trans _ _ [split_point n] _ b b1 b').
Qed.

(** [findNN_] logs the node it is entered on and never removes an entry. *)
Lemma findNN__calls (t : Tree) : ∀ (q : Point) st st',
  findNN_ t q st = Ok st' →
  ∃ rest, calls st' = calls st ++ split_point t :: rest.
Proof.
  induction t as [t IHl IHr] using Tree_ind. intros q st st' Hrun.
  assert (Hchild : ∀ c s s', (c = left_child_ t ∨ c = right_child_ t) →
    search_child q c s = Ok s' → ∃ rest, calls s' = calls s ++ rest).
  { intros [c|] s s' Hc Hs; simpl in Hs.
    - destruct Hc as [Hc|Hc];
        [apply (IHl c) in Hs as [rest ->] | apply (IHr c) in Hs as [rest ->]];
        eauto.
    - injection Hs as <-. exists []. by rewrite app_nil_r. }
  rewrite findNN__unfold in Hrun. cbn zeta in Hrun.
  apply bind_Ok in Hrun as (dist & _ & Hrun).
  apply bind_Ok in Hrun as (r & _ & Hrun).
  apply bind_Ok in Hrun as (l & _ & Hrun).
  apply bind_Ok in Hrun as (st2 & Hcloser & Hrun).
  apply Hchild in Hcloser as [rest2 Hrest2]; [|destruct (0 <? r - l); auto].
  assert (∃ rest3, calls st' = calls st2 ++ rest3) as [rest3 ->].
  { destruct (_ <? best_dist st2).
    - apply Hchild in Hrun; [done | destruct (0 <? r - l); auto].
    - injection Hrun as <-. exists []. by rewrite app_nil_r. }
  rewrite Hrest2. exists (rest2 ++ rest3).
  destruct (dist <? _); simpl; by rewrite <- !app_assoc.
Qed.

(** ** Both searches on a constructed tree *)

Section Search_facts.
Context `{StdSort}.

Lemma buildable_Built k this (pts : list Point) depth :
  buildable k pts →
  ∃ t, RecursiveInit this pts depth = Ok t ∧
       Built k this pts depth (own_parent depth) (Some t).
Proof. intros (Hne & Hk & Hall). by apply RecursiveInit_Built. Qed.

Lemma Built_searchable k this (pts : list Point) depth par o :
  buildable k pts → Built k this pts depth par o → searchable k o.
Proof.
  intros (Hne & Hk & Hall) HB. split; [by eapply Built_splits|]. split.
  - pose proof (Built_dims k this pts depth par o Hk HB) as Hd.
    rewrite list.Forall_forall in Hd |- *. intros n Hn. by apply Hd.
  - by eapply Built_point_sizes.
Qed.

(** The loop over a constructed tree is the loop body run on every node. *)
Lemma Built_for_range {St} (body : ptr → St → result St) k
    (pts : list Point) t fuel s :
  Built k [] pts 0 nullptr (Some t) → (length pts ≤ fuel)%nat →
  for_range fuel t body s = run_body body (at_address <$> node_addrs t []) s.
Proof.
  intros HB Hfuel. apply for_range_whole.
  - by apply Built_linked in HB.
  - by apply Built_left_first in HB.
  - apply Built_size in HB. simpl in HB. lia.
Qed.

(** On a constructed tree both searches return a point of the tree that is
    nearest to the query, provided some point is nearer than [T_max]. *)
Lemma searches_nearest T_max k (pts : list Point) (q : Point) fuel :
  buildable k pts → length q = k →
  (∃ p, p ∈ pts ∧ sqdist p q < T_max) → (length pts ≤ fuel)%nat →
  ∃ t pb pp,
    Tree_new pts = Ok t ∧
    findNN_brute_force T_max fuel t q = Ok pb ∧
    findNN T_max t q = Ok pp ∧
    pb ∈ pts ∧ pp ∈ pts ∧
    sqdist pb q = sqdist pp q ∧
    ∀ p, p ∈ pts → sqdist pp q ≤ sqdist p q.
Proof.
  intros Hb Hq (p0 & Hp0 & Hnear) Hfuel.
  destruct (buildable_Built k [] pts 0 Hb) as (t & Ht & HB).
  pose proof (Built_searchable _ _ _ _ _ _ Hb HB) as Hs.
  pose proof (Built_points _ _ _ _ _ _ HB) as Hpts. simpl in Hpts.
  change (points_of (Some t)) with (points t) in Hpts.
  (* the pruned search *)
  destruct (findNN__improves k q Hq t (findNN_init T_max t) Hs)
    as (st & Hrun & Hle & Hall & Hst).
  (* the brute-force search *)
  destruct (brute_force_scan t q k (node_addrs t []) (nodes t) (None, T_max))
    as (b & Hscan & Hle' & Hall' & Hb'); [by apply node_addrs_nodes | done | |].
  { destruct Hs as (_ & _ & Hsz). by apply Forall_fmap in Hsz. }
  fold (points t) in Hall', Hb'. simpl in *.
  setoid_rewrite Hpts in Hall. setoid_rewrite Hpts in Hall'.
  pose proof (Hall p0 Hp0). pose proof (Hall' p0 Hp0).
  destruct Hst as [Hst|(pp & Hpp & Hat & Hdpp & _)];
    [injection Hst as _ Hst; lia|].
  destruct Hb' as [->|(pb & Hpb & Hat' & Hdpb & _)]; [simpl in *; lia|].
  rewrite Hpts in Hpp, Hpb.
  exists t, pb, pp. split; [done|]. split; [|split].
  - unfold findNN_brute_force.
    rewrite (Built_for_range _ k pts) by done. rewrite Hscan. simpl.
    by rewrite Hat'.
  - unfold findNN. rewrite Hrun. simpl. by rewrite Hat.
  - repeat split; try done.
    + specialize (Hall pb Hpb). specialize (Hall' pp Hpp). lia.
    + intros p Hp. specialize (Hall p Hp). lia.
Qed.
End Search_facts.

(** ** Further facts used by the claims *)

Lemma nodes_subtree (t : Tree) : ∀ n m,
  n ∈ nodes t → m ∈ nodes n → m ∈ nodes t.
Proof.
  induction t as [t IHl IHr] using Tree_ind. intros n m.
  rewrite (nodes_unfold t), !elem_of_app, !elem_of_cons.
  intros [Hn|[->|Hn]] Hm.
  - destruct (left_child_ t) as [l|]; simpl in *; [|by apply elem_of_nil in Hn].
    left. by apply (IHl l eq_refl n).
  - by rewrite (nodes_unfold t), !elem_of_app, !elem_of_cons in Hm.
  - destruct (right_child_ t) as [r|]; simpl in *; [|by apply elem_of_nil in Hn].
    right. right. by apply (IHr r eq_refl n).
Qed.

Lemma nodes_self (t : Tree) : t ∈ nodes t.
Proof. rewrite nodes_unfold, elem_of_app, elem_of_cons. auto. Qed.

Lemma points_of_child (t n : Tree) (x : Point) :
  n ∈ nodes t →
  x ∈ points_of (left_child_ n) ∨ x = split_point n ∨ x ∈ points_of (right_child_ n) →
  x ∈ points t.
Proof.
  intros Hn Hx.
  assert (x ∈ points n) as (m & -> & Hm)%list_elem_of_fmap.
  { rewrite points_unfold, elem_of_app, elem_of_cons. tauto. }
  apply list_elem_of_fmap_2. by apply (nodes_subtree t n).
Qed.

Lemma brute_force_body_Err tree (q : Point) (a : list link) n
    (b : option Point * Z) :
  node_at tree a = Some n → (length q < length (split_point n))%nat →
  brute_force_body tree q (at_address a) b = Err out_of_range.
Proof.
  intros Hn Hlen. unfold brute_force_body.
  rewrite (deref_at _ _ _ Hn). cbn [mbind result_bind].
  by rewrite distance_to_Err.
Qed.

Section Step_facts.
Context `{StdSort}.

Lemma std_sort_singleton axis (p : Point) : std_sort axis [p] = [p].
Proof. apply Permutation_singleton_r, std_sort_perm. Qed.

(** A single point becomes a node without children that splits on axis 0. *)
Lemma Tree_new_singleton (p : Point) :
  p ≠ [] → Tree_new [p] = Ok (single p).
Proof.
  intros Hp. unfold Tree_new, RecursiveInit. cbn [length RecursiveInit_].
  cbn [Nat.eqb validate_sizes mbind result_bind]. unfold Point_size.
  destruct (Nat.eqb_spec (length p) 0) as [E|_].
  { by apply length_zero_iff_nil in E. }
  rewrite Nat.Div0.mod_0_l. unfold comparator_throws. cbn [length Nat.leb andb].
  rewrite std_sort_singleton. done.
Qed.

(** The left sub-range takes half of the range, rounded down, and the right
    sub-range the rest but the median. *)
Lemma Built_child_sizes k this (pts : list Point) depth par o :
  Built k this pts depth par o →
  Forall (λ n,
    length (nodes_of (left_child_ n)) = (length (nodes n) / 2)%nat ∧
    length (nodes_of (right_child_ n)) = ((length (nodes n) + 1) / 2 - 1)%nat)
    (nodes_of o).
Proof.
  apply Built_Forall_nodes. clear. intros this pts depth par median l r Hne Hmed Hl Hr.
  apply Built_size in Hl, Hr.
  rewrite length_take, std_sort_length in Hl.
  rewrite length_drop, std_sort_length in Hr.
  rewrite nodes_unfold, length_app. cbn [left_child_ right_child_ length].
  rewrite Hl, Hr.
  assert (0 < length pts)%nat by (destruct pts; simpl; [done|lia]).
  set (n := length pts) in *.
  assert ((n / 2) `min` n + S (n - S (n / 2)) = n)%nat as -> by (half_facts n; lia).
  split; [half_facts n; lia|].
  half_facts n. half_facts (n + 1)%nat. lia.
Qed.

End Step_facts.

(** A sum of two squares leaves no remainder 3 modulo 4. *)
Lemma square_mod_4 (x : Z) : (x * x) mod 4 = 0 ∨ (x * x) mod 4 = 1.
Proof.
  pose proof (Z.div_mod x 2 ltac:(lia)) as Hx.
  pose proof (Z.mod_pos_bound x 2 ltac:(lia)) as Hr.
  set (h := x / 2) in *. set (r := x mod 2) in *.
  assert (r = 0 ∨ r = 1) as [Hr0|Hr1] by lia.
  - left. replace (x * x) with (0 + (h * h) * 4) by (rewrite Hx, Hr0; ring).
    by rewrite Z_mod_plus_full.
  - right. replace (x * x) with (1 + (h * h + h) * 4) by (rewrite Hx, Hr1; ring).
    by rewrite Z_mod_plus_full.
Qed.

Lemma two_squares_mod_4 (x y : Z) : (x * x + y * y) mod 4 ≠ 3.
Proof.
  rewrite Zplus_mod.
  destruct (square_mod_4 x) as [-> | ->], (square_mod_4 y) as [-> | ->]; done.
Qed.

(** * The claims *)

Section Claims.
Context `{StdSort}.


(** C2.  At every node on which [findNN_] returns, after the search of the
    closer child (the right child if [d > 0], else the left child, where [d]
    is the query's coordinate minus the node's along the split axis), the
    farther child is searched exactly when [d * d < best_dist] holds for the
    best distance left by the closer child; otherwise the state is returned
    as it is.  With a farther child [f], the call log grows by an entry for
    [f] if and only if the strict comparison holds. *)
Theorem C2_farther_child_strict_test (t : Tree) (q : Point)
    (st st' : search_state) :
  findNN_ t q st = Ok st' →
  ∃ local_dist r l st2,
    distance_to (split_point t) q = Ok local_dist ∧
    Point_index q (split_axis_ t) = Ok r ∧
    Point_index (split_point t) (split_axis_ t) = Ok l ∧
    let d := r - l in
    let closer_child := if 0 <? d then right_child_ t else left_child_ t in
    let farther_child := if 0 <? d then left_child_ t else right_child_ t in
    let st1 :=
      if local_dist <? best_dist st
      then mkState (split_point t) local_dist (calls st ++ [split_point t])
      else mkState (best_point st) (best_dist st) (calls st ++ [split_point t]) in
    search_child q closer_child st1 = Ok st2 ∧
    (d * d < best_dist st2 → search_child q farther_child st2 = Ok st') ∧
    (best_dist st2 ≤ d * d → st' = st2) ∧
    ∀ f, farther_child = Some f →
      (d * d < best_dist st2 ↔
       ∃ rest, calls st' = calls st2 ++ split_point f :: rest).
Proof.
  intros Hrun. rewrite findNN__unfold in Hrun. cbn zeta in Hrun.
  apply bind_Ok in Hrun as (dist & Hdist & Hrun).
  apply bind_Ok in Hrun as (r & Hr & Hrun).
  apply bind_Ok in Hrun as (l & Hl & Hrun).
  apply bind_Ok in Hrun as (st2 & Hcloser & Hrun).
  exists dist, r, l, st2. cbn zeta. simpl in Hcloser.
  do 4 (split; [done|]). split; [|split].
  - intros Hlt. apply Z.ltb_lt in Hlt. by rewrite Hlt in Hrun.
  - intros Hge. apply Z.ltb_ge in Hge. rewrite Hge in Hrun. by injection Hrun.
  - intros f Hf. rewrite Hf in Hrun. simpl in Hrun. split.
    + intros Hlt. apply Z.ltb_lt in Hlt. rewrite Hlt in Hrun.
      by apply findNN__calls in Hrun.
    + intros [rest Hrest].
      destruct (Z.ltb_spec ((r - l) * (r - l)) (best_dist st2)) as [|Hge]; [done|].
      injection Hrun as <-. apply (f_equal length) in Hrest.
      rewrite length_app in Hrest. simpl in Hrest. lia.
Qed.

(** C3.  In every tree constructed from a non-empty collection of points of
    one dimensionality, at every node, each point of the left subtree has a
    coordinate along the node's split axis that is at most the coordinate of
    the node's point, and each point of the right subtree one that is at
    least that coordinate. *)
Theorem C3_ordering_invariant k (pts : list Point) :
  buildable k pts →
  ∃ t, Tree_new pts = Ok t ∧
    ∀ n, n ∈ nodes t →
      (∀ x, x ∈ points_of (left_child_ n) →
            coord_le (split_axis_ n) x (split_point n)) ∧
      (∀ x, x ∈ points_of (right_child_ n) →
            coord_le (split_axis_ n) (split_point n) x).
Proof.
  intros Hb. destruct (buildable_Built k [] pts 0 Hb) as (t & Ht & HB).
  destruct (Built_searchable _ _ _ _ _ _ Hb HB) as (Hsplits & Hax & Hsz).
  change (points_of (Some t)) with (points t) in Hsz. simpl in Hsplits, Hax.
  rewrite list.Forall_forall in Hsplits. rewrite list.Forall_forall in Hax.
  rewrite list.Forall_forall in Hsz.
  exists t. split; [done|]. intros n Hn.
  specialize (Hax n Hn). destruct (Hsplits n Hn) as [Hl Hr].
  assert (Hidx : ∀ x, x ∈ points_of (left_child_ n) ∨ x = split_point n ∨
                      x ∈ points_of (right_child_ n) →
                 Point_index x (split_axis_ n) = Ok (coord (split_axis_ n) x)).
  { intros x Hx. apply Point_index_Ok.
    rewrite (Hsz x); [done|]. by apply (points_of_child t n). }
  split; intros x Hx.
  - exists (coord (split_axis_ n) x), (coord (split_axis_ n) (split_point n)).
    split; [apply Hidx; auto|]. split; [apply Hidx; auto|]. by apply Hl.
  - exists (coord (split_axis_ n) (split_point n)), (coord (split_axis_ n) x).
    split; [apply Hidx; auto|]. split; [apply Hidx; auto|]. by apply Hr.
Qed.

(** C4.  On every tree constructed from a non-empty collection of [n] points
    the loop from [begin()] to [end()] ends, and it visits [n] positions, no
    position twice: pointers to all nodes of the tree; the points it yields
    are a permutation of the points supplied. *)
Theorem C4_traversal_complete k (pts : list Point) fuel :
  buildable k pts → (length pts ≤ fuel)%nat →
  ∃ t visited yielded,
    Tree_new pts = Ok t ∧
    for_range fuel t record_visit [] = Ok visited ∧
    length visited = length pts ∧
    NoDup visited ∧
    load t <$> visited = Ok <$> nodes t ∧
    deref t <$> visited = Ok <$> yielded ∧
    yielded ≡ₚ pts.
Proof.
  intros Hb Hfuel. destruct (buildable_Built k [] pts 0 Hb) as (t & Ht & HB).
  pose proof (node_addrs_nodes t t [] eq_refl) as Hns.
  exists t, (at_address <$> node_addrs t []), (points t).
  split; [done|]. split; [|split; [|split; [|split; [|split]]]].
  - rewrite (Built_for_range _ k pts) by done. apply run_body_record_visit.
  - rewrite length_fmap, node_addrs_length. by apply Built_size in HB.
  - apply NoDup_fmap_2; [by intros ?? [=] | apply node_addrs_NoDup].
  - by apply load_addrs.
  - unfold points. rewrite <- !list_fmap_compose.
    apply (load_addrs t) in Hns. rewrite <- list_fmap_compose in Hns.
    revert Hns. generalize (nodes t).
    induction (node_addrs t []) as [|a addrs IH]; intros [|n ns] Hns; try done.
    injection Hns as Hn Hns. rewrite !fmap_cons. f_equal; [|by apply IH].
    simpl in *. unfold deref. simpl. by rewrite Hn.
  - by apply Built_points in HB.
Qed.

(** C5.  The tree constructed from [n >= 1] points has exactly
    [ceil(log2(n+1))] levels: its height [h] is [Nat.log2_up (n + 1)], the
    number with [2^(h-1) < n + 1 <= 2^h]. *)
Theorem C5_height k (pts : list Point) :
  buildable k pts →
  ∃ t, Tree_new pts = Ok t ∧
       height t = Nat.log2_up (length pts + 1) ∧
       (2 ^ (height t - 1) < length pts + 1 ≤ 2 ^ height t)%nat.
Proof.
  intros Hb. destruct (buildable_Built k [] pts 0 Hb) as (t & Ht & HB).
  exists t. split; [done|]. apply Built_height in HB. simpl in HB.
  split; [done|]. rewrite HB.
  assert (0 < length pts)%nat by (destruct Hb as [? _]; destruct pts; simpl; [done|lia]).
  pose proof (Nat.log2_up_spec (length pts + 1) ltac:(lia)) as Hspec.
  by rewrite <- Nat.sub_1_r in Hspec.
Qed.

Lemma Built_child_result k this lk (rng : list Point) depth o :
  (0 < k)%nat → Forall (λ p, Point_size p = k) rng →
  Built k (lk :: this) rng depth (at_address this) o →
  (rng = [] → o = None) ∧
  (rng ≠ [] →
     ∃ c, RecursiveInit (lk :: this) rng depth = Ok c ∧
          o = Some (set_parent_ c (at_address this))).
Proof.
  intros Hk Hall HB. split.
  - intros ->. by inversion HB.
  - intros Hne.
    destruct (buildable_Built k (lk :: this) rng depth) as (c & Hc & HBc); [done|].
    exists c. split; [done|].
    apply (Built_functional _ _ _ _ _ _ HB).
    by apply (Built_set_parent _ _ _ _ (own_parent depth)).
Qed.

(** C6.  A construction step over a non-empty range of length [len] at depth
    [depth] splits on axis [depth mod dims]; its point is the element at
    index [len / 2] of the range sorted along that axis; its left child is
    what construction at [depth + 1] makes of the elements before that index,
    its right child what it makes of the elements after it, each with its
    [parent_] set to the node; an empty sub-range gives no child. *)
Theorem C6_construction_step k this (pts : list Point) depth :
  buildable k pts →
  let axis := (depth mod k)%nat in
  let sorted := std_sort axis pts in
  let m := (length pts / 2)%nat in
  let before := take m sorted in
  let after := drop (S m) sorted in
  ∃ t median,
    RecursiveInit this pts depth = Ok t ∧
    split_axis_ t = axis ∧
    sorted ≡ₚ pts ∧ StronglySorted (axis_le axis) sorted ∧
    sorted !! m = Some median ∧ split_point t = median ∧
    (before = [] → left_child_ t = None) ∧
    (before ≠ [] →
       ∃ l, RecursiveInit (left_link :: this) before (S depth) = Ok l ∧
            left_child_ t = Some (set_parent_ l (at_address this))) ∧
    (after = [] → right_child_ t = None) ∧
    (after ≠ [] →
       ∃ r, RecursiveInit (right_link :: this) after (S depth) = Ok r ∧
            right_child_ t = Some (set_parent_ r (at_address this))).
Proof.
  intros Hb. cbn zeta.
  destruct (buildable_Built k this pts depth Hb) as (t & Ht & HB).
  destruct Hb as (Hne & Hk & Hall).
  inversion HB as [|? ? ? ? median l r _ Hmed Hl Hr]; subst.
  exists (mkTree l r (own_parent depth) (depth mod k)%nat k median), median.
  cbn [split_axis_ split_point left_child_ right_child_].
  do 2 (split; [done|]). split; [apply std_sort_perm|].
  split; [apply std_sort_sorted|]. do 2 (split; [done|]).
  apply Built_child_result in Hl as [? ?], Hr as [? ?];
    auto using Forall_take, Forall_drop, std_sort_Forall.
Qed.

(** C9.  In every constructed tree the left subtree of a node holds half of
    the node's points, rounded down, and the right subtree the remaining
    ones but the node's own; so a node with a right child has a left child.
    The descent of [begin()] therefore follows left links only, and the loop
    visits every node that the [parent_] of a visited node points to. *)
Theorem C9_right_child_implies_left k (pts : list Point) fuel :
  buildable k pts → (length pts ≤ fuel)%nat →
  ∃ t first visited,
    Tree_new pts = Ok t ∧
    (∀ n, n ∈ nodes t →
       length (nodes_of (left_child_ n)) = (length (nodes n) / 2)%nat ∧
       length (nodes_of (right_child_ n)) = ((length (nodes n) + 1) / 2 - 1)%nat ∧
       (is_Some (right_child_ n) → is_Some (left_child_ n))) ∧
    begin t = Ok (at_address first) ∧
    Forall (λ lk, lk = left_link) first ∧
    for_range fuel t record_visit [] = Ok visited ∧
    (∀ p n, p ∈ visited → load t p = Ok n →
            parent_ n = nullptr ∨ parent_ n ∈ visited).
Proof.
  intros Hb Hfuel. destruct (buildable_Built k [] pts 0 Hb) as (t & Ht & HB).
  pose proof (Built_left_first _ _ _ _ _ _ HB) as Hlf.
  pose proof (Built_child_sizes _ _ _ _ _ _ HB) as Hsz. simpl in Hlf, Hsz.
  exists t, (leftmost t []), (at_address <$> node_addrs t []). split; [done|].
  split; [|split; [|split; [|split]]].
  - rewrite list.Forall_forall in Hlf. rewrite list.Forall_forall in Hsz.
    intros n Hn. destruct (Hsz n Hn). repeat split; try done. by apply Hlf.
  - by apply begin_leftmost.
  - destruct (leftmost_address t []) as [n ->]. rewrite app_nil_r.
    apply list.Forall_forall. by intros lk [-> _]%elem_of_replicate.
  - rewrite (Built_for_range _ k pts) by done. apply run_body_record_visit.
  - intros p n (a & -> & Ha)%list_elem_of_fmap Hn.
    simpl in Hn. destruct (node_at t a) as [n'|] eqn:Hn'; [|done].
    injection Hn as <-.
    rewrite (Built_linked _ _ _ HB a n' Hn').
    destruct a as [|lk a']; [by left|]. right.
    apply list_elem_of_fmap_2. by apply (node_addrs_up t lk).
Qed.

End Claims.

(** C8 (as amended).  [findNN] starts the recursive search with the root's
    point as the best point and [numeric_limits<T>::max()] as the best
    squared distance, and returns the best point the search ends with. *)
Theorem C8_findNN_initial_state T_max (t : Tree) (q : Point) :
  best_point (findNN_init T_max t) = split_point t ∧
  best_dist (findNN_init T_max t) = T_max ∧
  findNN T_max t q =
    findNN_ t q (findNN_init T_max t) ≫= λ st, Ok (best_point st).
Proof. done. Qed.

(** * Concrete instances *)

Lemma buildable_wiki : buildable 2 wiki.
Proof. split; [done|]. split; [lia | by repeat constructor]. Defined.



Lemma C2_witness :
  ∃ st',
    findNN_ two_nodes [9; 2] (findNN_init INT_MAX two_nodes) = Ok st' ∧
    calls st' = [[5; 4]; [2; 3]] ∧
    ∃ local_dist r l,
      distance_to (split_point two_nodes) [9; 2] = Ok local_dist ∧
      Point_index [9; 2] (split_axis_ two_nodes) = Ok r ∧
      Point_index (split_point two_nodes) (split_axis_ two_nodes) = Ok l.
Proof.
  eexists. split; [reflexivity|]. split; [reflexivity|].
  destruct (C2_farther_child_strict_test two_nodes [9; 2]
              (findNN_init INT_MAX two_nodes) _ eq_refl)
    as (local_dist & r & l & st2 & Hd & Hr & Hl & _).
  exists local_dist, r, l. repeat split; assumption.
Defined.

Lemma C3_witness :
  buildable 2 wiki ∧
  ∃ t, Tree_new wiki = Ok t ∧
    ∀ n, n ∈ nodes t →
      (∀ x, x ∈ points_of (left_child_ n) →
            coord_le (split_axis_ n) x (split_point n)) ∧
      (∀ x, x ∈ points_of (right_child_ n) →
            coord_le (split_axis_ n) (split_point n) x).
Proof.
  split; [exact buildable_wiki|].
  exact (C3_ordering_invariant 2 wiki buildable_wiki).
Defined.

Lemma C4_witness :
  buildable 2 wiki ∧
  ∃ t visited yielded,
    Tree_new wiki = Ok t ∧
    for_range 6 t record_visit [] = Ok visited ∧
    length visited = 6%nat ∧
    NoDup visited ∧
    load t <$> visited = Ok <$> nodes t ∧
    deref t <$> visited = Ok <$> yielded ∧
    yielded ≡ₚ wiki.
Proof.
  split; [exact buildable_wiki|].
  exact (C4_traversal_complete 2 wiki 6 buildable_wiki (le_n 6)).
Defined.

Lemma C5_witness :
  buildable 2 wiki ∧ ∃ t, Tree_new wiki = Ok t ∧ height t = 3%nat.
Proof.
  split; [exact buildable_wiki|].
  destruct (C5_height 2 wiki buildable_wiki) as (t & Ht & Hh & _).
  exists t. split; [exact Ht|]. rewrite Hh. reflexivity.
Defined.

Lemma C6_witness :
  buildable 2 wiki ∧
  ∃ t l r,
    RecursiveInit [] wiki 0 = Ok t ∧
    split_axis_ t = 0%nat ∧ split_point t = [7; 2] ∧
    RecursiveInit [left_link] [[2; 3]; [4; 7]; [5; 4]] 1 = Ok l ∧
    left_child_ t = Some (set_parent_ l (at_address [])) ∧
    RecursiveInit [right_link] [[8; 1]; [9; 6]] 1 = Ok r ∧
    right_child_ t = Some (set_parent_ r (at_address [])).
Proof.
  split; [exact buildable_wiki|].
  destruct (C6_construction_step 2 [] wiki 0 buildable_wiki)
    as (t & median & Ht & Hax & _ & _ & Hmed & Hpt & _ & Hl & _ & Hr).
  destruct (Hl ltac:(discriminate)) as (l & Hl1 & Hl2).
  destruct (Hr ltac:(discriminate)) as (r & Hr1 & Hr2).
  exists t, l, r. injection Hmed as <-. repeat split; assumption.
Defined.

Lemma C9_witness :
  buildable 2 wiki ∧
  ∃ t first, Tree_new wiki = Ok t ∧ begin t = Ok (at_address first) ∧
             Forall (λ lk, lk = left_link) first.
Proof.
  split; [exact buildable_wiki|].
  destruct (C9_right_child_implies_left 2 wiki 6 buildable_wiki (le_n 6))
    as (t & first & visited & Ht & _ & Hbegin & Hleft & _).
  exists t, first. repeat split; assumption.
Defined.


(** C8 as stated fails.  For the tree of the single point (0,0) and the
    query (1,1) the squared distance from the root's point to the query is
    2, and [findNN] starts the recursive search with the best distance
    2147483647. *)
Lemma C8_counterexample :
  Tree_new [[0; 0]] = Ok (single [0; 0]) ∧
  distance_to (split_point (single [0; 0])) [1; 1] = Ok 2 ∧
  best_dist (findNN_init INT_MAX (single [0; 0])) = 2147483647 ∧
  best_dist (findNN_init INT_MAX (single [0; 0])) ≠ 2.
Proof. repeat split; try reflexivity. discriminate. Qed.

(** C7, the failing input.  For the tree of the single point (0,0) and the
    query (1,1,1), of three coordinates against the tree's two, both
    searches return (0,0) and nothing is raised. *)
Theorem C7_longer_query_accepted `{StdSort} :
  Tree_new [[0; 0]] = Ok (single [0; 0]) ∧
  findNN_brute_force INT_MAX 1 (single [0; 0]) [1; 1; 1] = Ok [0; 0] ∧
  findNN INT_MAX (single [0; 0]) [1; 1; 1] = Ok [0; 0].
Proof. split; [by apply Tree_new_singleton | by split]. Qed.

(** * Further properties *)

Section Further.
Context `{StdSort}.

(** X1.  Construction returns a tree exactly on the non-empty ranges of
    points of one dimensionality that is not zero. *)
Theorem Tree_new_Ok_iff (pts : list Point) :
  (∃ t, Tree_new pts = Ok t) ↔ ∃ k, buildable k pts.
Proof.
  split.
  - intros [t Ht]. destruct pts as [|p pts]; [done|].
    unfold Tree_new, RecursiveInit in Ht.
    cbn [length RecursiveInit_ Nat.eqb validate_sizes] in Ht. cbn zeta in Ht.
    apply bind_Ok in Ht as ([] & Hval & Ht). cbn [mbind result_bind] in Ht.
    exists (Point_size p). split; [done|]. split.
    + destruct (Nat.eqb_spec (Point_size p) 0); [done | lia].
    + destruct (validate_sizes_Some_inv pts (Point_size p)) as [[_ ?]|[E _]].
      * by constructor.
      * by rewrite E in Hval.
  - intros [k Hb]. destruct (buildable_Built k [] pts 0 Hb) as (t & Ht & _).
    by exists t.
Qed.

(** X2.  Construction stops at the failed assertion when two points of the
    collection differ in size. *)
Theorem Tree_new_mixed (pts : list Point) :
  ¬ (∃ k, Forall (λ p, Point_size p = k) pts) →
  Tree_new pts = Err assertion_failed.
Proof.
  intros Hmixed. destruct pts as [|p pts].
  { exfalso. apply Hmixed. exists O. constructor. }
  unfold Tree_new, RecursiveInit. cbn [length RecursiveInit_ Nat.eqb validate_sizes].
  destruct (validate_sizes_Some_inv pts (Point_size p)) as [[_ Hall]|[-> _]]; [|done].
  exfalso. apply Hmixed. exists (Point_size p). by constructor.
Qed.

(** X3.  A query with fewer coordinates than the points of the tree makes
    both searches throw [std::out_of_range] from [operator[]]. *)
Theorem searches_short_query T_max k (pts : list Point) (q : Point) fuel :
  buildable k pts → (Point_size q < k)%nat → (length pts ≤ fuel)%nat →
  ∃ t, Tree_new pts = Ok t ∧
       findNN_brute_force T_max fuel t q = Err out_of_range ∧
       findNN T_max t q = Err out_of_range.
Proof.
  intros Hb Hq Hfuel. destruct Hb as (Hne & Hk & Hall).
  destruct (Tree_new_Built k pts Hne Hall Hk) as (t & Ht & HB).
  pose proof (Built_point_sizes _ _ _ _ _ _ Hall HB) as Hsz.
  change (points_of (Some t)) with (points t) in Hsz.
  rewrite list.Forall_forall in Hsz.
  exists t. split; [done|]. split.
  - unfold findNN_brute_force. rewrite (Built_for_range _ k pts) by done.
    pose proof (node_addrs_nodes t t [] eq_refl) as Hns.
    destruct (node_addrs t []) as [|a addrs], (nodes t) as [|n ns] eqn:En;
      try done.
    { pose proof (length_nodes_pos t) as Hpos. rewrite En in Hpos.
      simpl in Hpos. lia. }
    injection Hns as Hn _. rewrite fmap_cons. cbn [run_body].
    rewrite (brute_force_body_Err t q a n); [done..|].
    rewrite (Hsz (split_point n)); [done|].
    unfold points. rewrite En. apply list_elem_of_fmap_2.
    apply elem_of_cons. by left.
  - unfold findNN. rewrite findNN__unfold. cbn zeta.
    rewrite distance_to_Err; [done|].
    rewrite (Hsz (split_point t)); [done|].
    apply list_elem_of_fmap_2, nodes_self.
Qed.

(** The example of the test program: for the six points (2,3), (5,4),
    (9,6), (4,7), (8,1), (7,2) and the query (9,2) both searches return
    (8,1), whatever order [std::sort] leaves equal keys in. *)
Theorem wiki_nearest :
  ∃ t, Tree_new wiki = Ok t ∧
       findNN_brute_force INT_MAX 6 t [9; 2] = Ok [8; 1] ∧
       findNN INT_MAX t [9; 2] = Ok [8; 1].
Proof.
  destruct (searches_nearest INT_MAX 2 wiki [9; 2] 6 buildable_wiki eq_refl)
    as (t & pb & pp & Ht & Hb & Hp & Hpb & Hpp & Heq & Hmin).
  { exists [8; 1]. split; [|done]. apply (list_elem_of_lookup_2 _ 4). done. }
  { done. }
  assert (Hnear : ∀ p, p ∈ wiki → sqdist p [9; 2] ≤ 2 → p = [8; 1]).
  { intros p Hp'. unfold wiki in Hp'. rewrite !elem_of_cons, elem_of_nil in Hp'.
    destruct Hp' as [->|[->|[->|[->|[->|[->|[]]]]]]]; vm_compute; by intros ?. }
  specialize (Hmin [8; 1] ltac:(apply (list_elem_of_lookup_2 _ 4); done)).
  change (sqdist [8; 1] [9; 2]) with 2 in Hmin.
  assert (pp = [8; 1]) as -> by by apply Hnear.
  assert (pb = [8; 1]) as -> by (apply Hnear; [done | by rewrite Heq]).
  by exists t.
Qed.

(** X4.  Construction links the nodes: the [parent_] of the root is null and
    the [parent_] of every other node is the address of the node one link
    up. *)
Theorem Tree_new_linked k (pts : list Point) :
  buildable k pts → ∃ t, Tree_new pts = Ok t ∧ linked t.
Proof.
  intros Hb. destruct (buildable_Built k [] pts 0 Hb) as (t & Ht & HB).
  exists t. split; [done|]. by apply (Built_linked k pts).
Qed.
End Further.

Lemma Tree_new_mixed_witness :
  ¬ (∃ k, Forall (λ p, Point_size p = k) [[0; 0]; [1; 2; 3]]) ∧
  Tree_new [[0; 0]; [1; 2; 3]] = Err assertion_failed.
Proof.
  assert (Hmixed : ¬ (∃ k, Forall (λ p, Point_size p = k) [[0; 0]; [1; 2; 3]])).
  { intros [k Hk]. inversion Hk as [|? ? H1 Hk']. inversion Hk' as [|? ? H2 _].
    rewrite <- H1 in H2. discriminate H2. }
  split; [exact Hmixed|]. exact (Tree_new_mixed _ Hmixed).
Defined.

Lemma searches_short_query_witness :
  buildable 2 wiki ∧
  ∃ t, Tree_new wiki = Ok t ∧
       findNN_brute_force INT_MAX 6 t [9] = Err out_of_range ∧
       findNN INT_MAX t [9] = Err out_of_range.
Proof.
  split; [exact buildable_wiki|].
  exact (searches_short_query INT_MAX 2 wiki [9] 6 buildable_wiki
           (le_n 2) (le_n 6)).
Defined.

Lemma Tree_new_linked_witness :
  buildable 2 wiki ∧ ∃ t, Tree_new wiki = Ok t ∧ linked t.
Proof.
  split; [exact buildable_wiki|].
  exact (Tree_new_linked 2 wiki buildable_wiki).
Defined.

(** * Points *)

Lemma sqdist_zero (p : list Z) : ∀ q,
  (length p ≤ length q)%nat → sqdist p q = 0 ↔ p `prefix_of` q.
Proof.
  induction p as [|x p IH]; intros [|y q] Hlen; simpl in *; try lia.
  - split; [intros _; apply prefix_nil | done].
  - split; [intros _; apply prefix_nil | done].
  - pose proof (sqdist_nonneg p q). pose proof (Z.square_nonneg (x - y)).
    split.
    + intros Hsum. assert ((x - y) * (x - y) = 0) as Hx by lia.
      assert (sqdist p q = 0) as Hp by lia.
      apply Z.mul_eq_0 in Hx. assert (x = y) as -> by lia.
      apply prefix_cons, IH; [lia | done].
    + intros Hpre. pose proof (prefix_cons_inv_1 _ _ _ _ Hpre) as ->.
      apply prefix_cons_inv_2, IH in Hpre; [|lia].
      rewrite Hpre. lia.
Qed.

Lemma sqdist_sym (p : list Z) : ∀ q, sqdist p q = sqdist q p.
Proof.
  induction p as [|x p IH]; intros [|y q]; simpl; try done.
  rewrite (IH q). ring.
Qed.

Lemma all_equal_loop_false (data : list Z) : ∀ rhs_data,
  all_equal_loop data rhs_data false = false.
Proof. induction data as [|x data IH]; intros [|y rhs_data]; simpl; auto. Qed.

Lemma all_equal_loop_true (data : list Z) : ∀ rhs_data,
  length data = length rhs_data →
  all_equal_loop data rhs_data true = true ↔ data = rhs_data.
Proof.
  induction data as [|x data IH]; intros [|y rhs_data] Hlen; simpl in *;
    try done.
  destruct (Z.eqb_spec x y) as [->|Hne].
  - rewrite IH by lia. split; [by intros -> | by intros [= ->]].
  - rewrite all_equal_loop_false. split; [done | by intros [= ? _]].
Qed.

Lemma distance_to_prefix (p q : Point) :
  distance_to p q = Ok 0 ↔ p `prefix_of` q.
Proof.
  destruct (Nat.le_gt_cases (length p) (length q)) as [Hle|Hgt].
  - rewrite distance_to_Ok by done. rewrite <- sqdist_zero by done.
    split; [by intros [= ?] | by intros ->].
  - rewrite distance_to_Err by done. split; [done|].
    intros Hp%prefix_length. lia.
Qed.

Lemma distance_to_equal (p q : Point) :
  length p = length q → distance_to p q = Ok 0 ↔ p = q.
Proof.
  intros Hlen. rewrite distance_to_prefix. split.
  - intros [rest ->]. rewrite length_app in Hlen.
    destruct rest; [by rewrite app_nil_r | simpl in Hlen; lia].
  - by intros ->.
Qed.




(** X8.  Writing through [operator[]] and reading back: inside the bounds
    the write succeeds, the coordinate written is the one read, every other
    coordinate and the size stay as they were; outside the bounds writing
    and reading both throw [std::out_of_range]. *)
Theorem Point_assign_index (p : Point) (i : nat) (v : Z) :
  ((i < Point_size p)%nat →
   ∃ p', Point_assign p i v = Ok p' ∧
         Point_size p' = Point_size p ∧
         Point_index p' i = Ok v ∧
         ∀ j, j ≠ i → Point_index p' j = Point_index p j) ∧
  ((Point_size p ≤ i)%nat →
   Point_assign p i v = Err out_of_range ∧
   Point_index p i = Err out_of_range).
Proof.
  unfold Point_assign, Point_size, Point_index. split.
  - intros Hi. exists (<[i := v]> p).
    destruct (Nat.leb_spec (length p) i); [lia|]. split; [done|].
    split; [apply length_insert|]. split.
    + by rewrite list_lookup_insert_eq.
    + intros j Hj. by rewrite list_lookup_insert_ne.
  - intros Hi. destruct (Nat.leb_spec (length p) i); [|lia].
    split; [done|]. by rewrite lookup_ge_None_2.
Qed.


(** * The searches *)

Lemma node_at_nodes (root : Tree) : ∀ a n,
  node_at root a = Some n → n ∈ nodes root.
Proof.
  intros a. induction a as [|lk a IH]; intros n Hn.
  - injection Hn as <-. apply nodes_self.
  - apply node_at_parent in Hn as (t & Ht & Hc).
    apply (nodes_subtree root t); [by apply IH|].
    rewrite nodes_unfold, elem_of_app, elem_of_cons.
    destruct lk; simpl in Hc; rewrite Hc; simpl.
    + left. apply nodes_self.
    + right. right. apply nodes_self.
Qed.

Lemma deref_points (root : Tree) (it : ptr) (p : Point) :
  deref root it = Ok p → p ∈ points root.
Proof.
  unfold deref. intros (n & Hn & ->)%fmap_Ok.
  apply list_elem_of_fmap_2. destruct it as [| |a]; try done.
  simpl in Hn. destruct (node_at root a) as [n'|] eqn:Ha; [|done].
  injection Hn as <-. by apply (node_at_nodes root a).
Qed.

(** What holds of the loop state before the loop and is kept by the body
    holds when the loop ends. *)
Lemma for_range__invariant {St} (I : St → Prop)
    (body : ptr → St → result St) bound root :
  (∀ it s s', I s → body it s = Ok s' → I s') →
  ∀ fuel it s s',
    I s → for_range_ bound fuel root it body s = Ok s' → I s'.
Proof.
  intros Hbody fuel. induction fuel as [|fuel IH]; intros it s s' Hs Hrun;
    simpl in Hrun.
  - destruct (ptr_eqb it end_); [by injection Hrun as <- | done].
  - destruct (ptr_eqb it end_); [by injection Hrun as <-|].
    apply bind_Ok in Hrun as (s1 & Hb & Hrun).
    apply bind_Ok in Hrun as (it' & _ & Hrun).
    eapply IH; [|exact Hrun]. by eapply Hbody.
Qed.

Lemma points_of_left (t : Tree) (x : Point) :
  x ∈ points_of (left_child_ t) → x ∈ points t.
Proof. rewrite points_unfold, elem_of_app. auto. Qed.

Lemma points_of_right (t : Tree) (x : Point) :
  x ∈ points_of (right_child_ t) → x ∈ points t.
Proof. rewrite points_unfold, elem_of_app, elem_of_cons. auto. Qed.

(** The best point that [findNN_] leaves is the one it was given or a point
    of the subtree. *)
Lemma findNN__best_point (t : Tree) : ∀ (q : Point) st st',
  findNN_ t q st = Ok st' →
  best_point st' = best_point st ∨ best_point st' ∈ points t.
Proof.
  induction t as [t IHl IHr] using Tree_ind. intros q st st' Hrun.
  assert (Hchild : ∀ c s s', (c = left_child_ t ∨ c = right_child_ t) →
    search_child q c s = Ok s' →
    best_point s' = best_point s ∨ best_point s' ∈ points t).
  { intros [c|] s s' Hc Hs; simpl in Hs; [|injection Hs as <-; by left].
    destruct Hc as [Hc|Hc].
    - destruct (IHl c (eq_sym Hc) q s s' Hs) as [?|Hin]; [by left|].
      right. apply points_of_left. by rewrite <- Hc.
    - destruct (IHr c (eq_sym Hc) q s s' Hs) as [?|Hin]; [by left|].
      right. apply points_of_right. by rewrite <- Hc. }
  rewrite findNN__unfold in Hrun. cbn zeta in Hrun.
  apply bind_Ok in Hrun as (dist & _ & Hrun).
  apply bind_Ok in Hrun as (r & _ & Hrun).
  apply bind_Ok in Hrun as (l & _ & Hrun).
  apply bind_Ok in Hrun as (st2 & Hcloser & Hrun).
  set (st1 := if dist <? _ then _ else _) in Hcloser.
  assert (H1 : best_point st1 = best_point st ∨ best_point st1 ∈ points t).
  { unfold st1. destruct (dist <? _); simpl; [|by left].
    right. apply list_elem_of_fmap_2, nodes_self. }
  assert (H2 : best_point st2 = best_point st ∨ best_point st2 ∈ points t).
  { apply Hchild in Hcloser; [|destruct (0 <? r - l); auto].
    destruct Hcloser as [->|?]; [done | by right]. }
  destruct (_ <? best_dist st2); [|by injection Hrun as <-].
  apply Hchild in Hrun; [|destruct (0 <? r - l); auto].
  destruct Hrun as [->|?]; [done | by right].
Qed.

Lemma sqdist_take (p : list Z) : ∀ (q : list Z) k,
  (length p ≤ k)%nat → sqdist p (take k q) = sqdist p q.
Proof.
  induction p as [|x p IH]; intros [|y q] [|k] Hlen; simpl in *;
    try done; try lia.
  rewrite IH by lia. done.
Qed.

Lemma distance_to_take (p q : Point) k :
  length p = k → (k ≤ length q)%nat →
  distance_to p (take k q) = distance_to p q.
Proof.
  intros Hp Hq. rewrite !distance_to_Ok by (rewrite ?length_take; lia).
  by rewrite sqdist_take by lia.
Qed.

Lemma Point_index_take (q : Point) k i :
  (i < k)%nat → Point_index (take k q) i = Point_index q i.
Proof. intros Hi. unfold Point_index. by rewrite lookup_take_lt. Qed.

(** The pruned search reads the first [k] coordinates of the query only. *)
Lemma findNN__take k (t : Tree) : ∀ (q : Point) st,
  searchable k (Some t) → (k ≤ length q)%nat →
  findNN_ t (take k q) st = findNN_ t q st.
Proof.
  induction t as [t IHl IHr] using Tree_ind. intros q st Hs Hq.
  destruct (searchable_children k t Hs) as (Hsl & Hsr & _ & Hax & Hp).
  assert (Hchild : ∀ c s, (c = left_child_ t ∨ c = right_child_ t) →
    search_child (take k q) c s = search_child q c s).
  { intros [c|] s Hc; simpl; [|done].
    destruct Hc as [Hc|Hc]; [apply IHl | apply IHr]; try done;
      by rewrite Hc. }
  rewrite !findNN__unfold. cbn zeta.
  rewrite distance_to_take by done.
  destruct (distance_to (split_point t) q) as [dist|]; [|done].
  cbn [mbind result_bind]. rewrite Point_index_take by done.
  destruct (Point_index q (split_axis_ t)) as [r|]; [|done].
  cbn [mbind result_bind].
  destruct (Point_index (split_point t) (split_axis_ t)) as [l|]; [|done].
  cbn [mbind result_bind].
  rewrite Hchild by (destruct (0 <? r - l); auto).
  destruct (search_child q _ _) as [st2|]; [|done]. cbn [mbind result_bind].
  destruct (_ <? best_dist st2); [|done].
  apply Hchild. destruct (0 <? r - l); auto.
Qed.

(** Two loop bodies that do the same on every listed position run alike. *)
Lemma run_body_ext {St} (body1 body2 : ptr → St → result St) ps :
  (∀ p s, p ∈ ps → body1 p s = body2 p s) →
  ∀ s, run_body body1 ps s = run_body body2 ps s.
Proof.
  induction ps as [|p ps IH]; intros Hext s; simpl; [done|].
  rewrite Hext by (apply elem_of_cons; auto).
  destruct (body2 p s); simpl; [|done].
  apply IH. intros p' s' Hp'. apply Hext, elem_of_cons. auto.
Qed.

(** Every entry that [findNN_] adds to its log is the point of a node of the
    subtree, and no node contributes more than one entry. *)
Lemma findNN__entered (t : Tree) : ∀ (q : Point) st st',
  findNN_ t q st = Ok st' →
  ∃ entered, calls st' = calls st ++ split_point t :: entered ∧
             split_point t :: entered ⊆+ points t.
Proof.
  induction t as [t IHl IHr] using Tree_ind. intros q st st' Hrun.
  assert (Hchild : ∀ c s s', (c = left_child_ t ∨ c = right_child_ t) →
    search_child q c s = Ok s' →
    ∃ entered, calls s' = calls s ++ entered ∧ entered ⊆+ points_of c).
  { intros [c|] s s' Hc Hs; simpl in Hs.
    - destruct Hc as [Hc|Hc];
        [apply (IHl c (eq_sym Hc)) in Hs as (e & -> & ?)
        |apply (IHr c (eq_sym Hc)) in Hs as (e & -> & ?)]; eauto.
    - injection Hs as <-. exists []. by rewrite app_nil_r. }
  rewrite findNN__unfold in Hrun. cbn zeta in Hrun.
  apply bind_Ok in Hrun as (dist & _ & Hrun).
  apply bind_Ok in Hrun as (r & _ & Hrun).
  apply bind_Ok in Hrun as (l & _ & Hrun).
  apply bind_Ok in Hrun as (st2 & Hcloser & Hrun).
  set (st1 := if dist <? _ then _ else _) in Hcloser.
  assert (Hst1 : calls st1 = calls st ++ [split_point t])
    by (unfold st1; by destruct (dist <? _)).
  set (closer := if 0 <? r - l then right_child_ t else left_child_ t) in *.
  set (farther := if 0 <? r - l then left_child_ t else right_child_ t) in *.
  assert (Hperm : points t ≡ₚ
                  split_point t :: points_of closer ++ points_of farther).
  { rewrite points_unfold. unfold closer, farther.
    destruct (0 <? r - l).
    - rewrite (Permutation_app_comm (points_of (right_child_ t))).
      by rewrite Permutation_middle.
    - by rewrite Permutation_middle. }
  apply Hchild in Hcloser as (e2 & He2 & Hsub2);
    [|unfold closer; destruct (0 <? r - l); auto].
  assert (∃ e3, calls st' = calls st2 ++ e3 ∧ e3 ⊆+ points_of farther)
    as (e3 & He3 & Hsub3).
  { destruct (_ <? best_dist st2).
    - apply Hchild in Hrun; [done|]. unfold farther.
      destruct (0 <? r - l); auto.
    - injection Hrun as <-. exists []. rewrite app_nil_r. split; [done|].
      apply submseteq_nil_l. }
  exists (e2 ++ e3). split.
  - rewrite He3, He2, Hst1, <- !app_assoc. done.
  - rewrite Hperm. apply submseteq_skip. by apply submseteq_app.
Qed.

Lemma collect_at root (a : list link) n seen :
  node_at root a = Some n →
  collect root (at_address a) seen = Ok (seen ++ [split_point n]).
Proof. intros Hn. unfold collect. by rewrite (deref_at _ _ _ Hn). Qed.

Lemma run_body_collect root (addrs : list (list link)) : ∀ (ns : list Tree) seen,
  node_at root <$> addrs = Some <$> ns →
  run_body (collect root) (at_address <$> addrs) seen
  = Ok (seen ++ (split_point <$> ns)).
Proof.
  induction addrs as [|a addrs IH]; intros [|n ns] seen Hns; try done.
  - by rewrite app_nil_r.
  - injection Hns as Hn Hns. rewrite fmap_cons. cbn [run_body].
    rewrite (collect_at _ _ _ _ Hn). cbn [mbind result_bind].
    rewrite (IH ns) by done. by rewrite fmap_cons, <- app_assoc.
Qed.

(** The brute-force loop keeps the first of the nearest points it meets. *)
Lemma brute_force_scan_first tree (q : Point) k (addrs : list (list link)) :
  ∀ (ns : list Tree) b,
  node_at tree <$> addrs = Some <$> ns →
  length q = k → Forall (λ n, length (split_point n) = k) ns →
  ∃ b', run_body (brute_force_body tree q) (at_address <$> addrs) b = Ok b' ∧
    ((b' = b ∧ ∀ n, n ∈ ns → b.2 ≤ sqdist (split_point n) q) ∨
     ∃ i n, ns !! i = Some n ∧
       b' = (Some (split_point n), sqdist (split_point n) q) ∧
       sqdist (split_point n) q < b.2 ∧
       ∀ j m, ns !! j = Some m →
         sqdist (split_point n) q ≤ sqdist (split_point m) q ∧
         ((j < i)%nat → sqdist (split_point n) q < sqdist (split_point m) q)).
Proof.
  induction addrs as [|a addrs IH]; intros [|n0 ns] b Hns Hq Hall; try done.
  - exists b. split; [done|]. left. split; [done|]. by intros n ?%elem_of_nil.
  - injection Hns as Hn Hns.
    apply Forall_cons_1 in Hall as [Hp Hall].
    rewrite fmap_cons. cbn [run_body].
    rewrite (brute_force_body_Ok tree q a n0) by (first [done | lia]).
    cbn [mbind result_bind].
    set (d0 := sqdist (split_point n0) q).
    set (b1 := if d0 <? b.2 then (Some (split_point n0), d0) else b).
    assert (Hb1 : b1.2 ≤ b.2 ∧ b1.2 ≤ d0).
    { unfold b1. destruct (Z.ltb_spec d0 b.2); simpl; lia. }
    destruct (IH ns b1 Hns Hq Hall) as (b' & Hrun & Hb').
    exists b'. split; [done|].
    destruct Hb' as [[-> Hrest]|(i & n & Hi & -> & Hlt & Hmin)].
    + unfold b1 in *. destruct (Z.ltb_spec d0 b.2) as [Hlt|Hge].
      * right. exists O, n0. split; [done|]. split; [done|]. split; [done|].
        intros [|j] m Hm; simpl in Hm.
        -- injection Hm as <-. split; [lia | lia].
        -- split; [|lia]. apply Hrest. by eapply list_elem_of_lookup_2.
      * left. split; [done|]. intros n [->|Hin]%elem_of_cons; [done|].
        by apply Hrest.
    + right. exists (S i), n. split; [done|]. split; [done|]. split; [lia|].
      intros [|j] m Hm; simpl in Hm.
      * injection Hm as <-. fold d0. split; lia.
      * destruct (Hmin j m Hm) as [? Hj]. split; [done|]. intros ?.
        apply Hj. lia.
Qed.

Section More_search_facts.
Context `{StdSort}.

(** The brute-force loop over a constructed tree, with a query of the
    dimensionality of the tree. *)
Lemma Built_brute_force_scan T_max k this (pts : list Point) depth par
    (q : Point) t :
  Forall (λ p, length p = k) pts → length q = k →
  Built k this pts depth par (Some t) →
  ∃ b', run_body (brute_force_body t q) (at_address <$> node_addrs t [])
          (None, T_max) = Ok b' ∧
        improves (λ bp p, bp = Some p) (points t) q (None, T_max) b'.
Proof.
  intros Hall Hq HB.
  pose proof (Built_point_sizes _ _ _ _ _ _ Hall HB) as Hsz.
  apply (brute_force_scan t q k);
    [by apply node_addrs_nodes | done | by apply Forall_fmap in Hsz].
Qed.
End More_search_facts.

(** X9.  Whatever the tree and the query, a point that a search returns is
    the point of a node of the tree. *)
Theorem searches_return_tree_points T_max fuel (t : Tree) (q p : Point) :
  findNN T_max t q = Ok p ∨ findNN_brute_force T_max fuel t q = Ok p →
  p ∈ points t.
Proof.
  intros [Hrun|Hrun].
  - unfold findNN in Hrun. apply bind_Ok in Hrun as (st & Hrun & [= <-]).
    apply findNN__best_point in Hrun as [->|?]; [|done].
    cbn [findNN_init best_point]. apply list_elem_of_fmap_2, nodes_self.
  - unfold findNN_brute_force in Hrun.
    apply bind_Ok in Hrun as (b & Hrun & Hb).
    destruct (b.1) as [p'|] eqn:Hp'; [|done]. injection Hb as ->.
    unfold for_range in Hrun. apply bind_Ok in Hrun as (first & _ & Hrun).
    refine (for_range__invariant
              (λ b : option Point * Z, ∀ p, b.1 = Some p → p ∈ points t)
              _ _ _ _ _ _ _ _ _ Hrun p Hp'); [|done].
    clear. intros it b b' Hb Hbody p.
    unfold brute_force_body in Hbody.
    apply bind_Ok in Hbody as (point & Hpoint & Hbody).
    apply bind_Ok in Hbody as (dist & _ & Hbody).
    destruct (dist <? b.2); injection Hbody as <-; [|by apply Hb].
    intros [= <-]. by apply deref_points in Hpoint.
Qed.

(** X10.  [findNN_] enters the node it is called on first, and it enters no
    node of the subtree more than once: the points it adds to its log are,
    with their multiplicities, among the points of the subtree. So it
    computes at most as many distances as the subtree has nodes. *)
Theorem findNN__enters_once (t : Tree) (q : Point) (st st' : search_state) :
  findNN_ t q st = Ok st' →
  ∃ entered,
    calls st' = calls st ++ split_point t :: entered ∧
    split_point t :: entered ⊆+ points t ∧
    (length (calls st') ≤ length (calls st) + length (nodes t))%nat.
Proof.
  intros Hrun. destruct (findNN__entered t q st st' Hrun) as (e & He & Hsub).
  exists e. do 2 (split; [done|]).
  apply submseteq_length in Hsub. unfold points in Hsub.
  rewrite length_fmap in Hsub. rewrite He, length_app. lia.
Qed.

(** X11.  Whatever the tree and the query, [findNN_] never raises the best
    distance, and it keeps the best point and the best distance together:
    when it returns, either both are as it found them, or the best distance
    is smaller than before and is the distance from the best point, a point
    of the subtree, to the query. *)
Theorem findNN__keeps_best (t : Tree) (q : Point) (st st' : search_state) :
  findNN_ t q st = Ok st' →
  best_dist st' ≤ best_dist st ∧
  (best st' = best st ∨
   best_dist st' < best_dist st ∧
   best_point st' ∈ points t ∧
   distance_to (best_point st') q = Ok (best_dist st')).
Proof.
  revert st st'. induction t as [t IHl IHr] using Tree_ind. intros st st' Hrun.
  set (Keeps := λ (pts : list Point) (s s' : search_state),
    best_dist s' ≤ best_dist s ∧
    (best s' = best s ∨
     best_dist s' < best_dist s ∧ best_point s' ∈ pts ∧
     distance_to (best_point s') q = Ok (best_dist s'))).
  assert (Htrans : ∀ s1 s2 s3, Keeps (points t) s1 s2 → Keeps (points t) s2 s3 →
            Keeps (points t) s1 s3).
  { intros s1 s2 s3 [Hle1 H1] [Hle2 H2]. split; [lia|].
    destruct H2 as [E2|(Hlt & Hin & Hd)].
    - destruct H1 as [E1|(Hlt & Hin & Hd)].
      + left. congruence.
      + right. injection E2 as Ep Ed. rewrite Ep, Ed. done.
    - right. split; [lia | done]. }
  assert (Hchild : ∀ c s s', (c = left_child_ t ∨ c = right_child_ t) →
    search_child q c s = Ok s' → Keeps (points t) s s').
  { intros [c|] s s' Hc Hs; simpl in Hs.
    - assert (Keeps (points c) s s') as [Hle Hk]
        by (destruct Hc as [Hc|Hc];
            [by apply (IHl c (eq_sym Hc)) | by apply (IHr c (eq_sym Hc))]).
      split; [done|]. destruct Hk as [?|(? & Hin & ?)]; [by left|].
      right. split; [done|]. split; [|done].
      destruct Hc as [Hc|Hc];
        [apply points_of_left | apply points_of_right]; by rewrite <- Hc.
    - injection Hs as <-. split; [lia | by left]. }
  change (Keeps (points t) st st').
  rewrite findNN__unfold in Hrun. cbn zeta in Hrun.
  apply bind_Ok in Hrun as (dist & Hdist & Hrun).
  apply bind_Ok in Hrun as (r & _ & Hrun).
  apply bind_Ok in Hrun as (l & _ & Hrun).
  apply bind_Ok in Hrun as (st2 & Hcloser & Hrun).
  set (st1 := if dist <? _ then _ else _) in Hcloser.
  assert (H1 : Keeps (points t) st st1).
  { unfold st1. simpl. destruct (Z.ltb_spec dist (best_dist st)); simpl.
    - split; [simpl; lia|]. right. simpl. split; [done|].
      split; [apply list_elem_of_fmap_2, nodes_self | done].
    - split; [simpl; lia | by left]. }
  apply Hchild in Hcloser; [|destruct (0 <? r - l); auto].
  apply (Htrans _ st2); [by apply (Htrans _ st1)|].
  destruct (_ <? best_dist st2).
  - apply Hchild in Hrun; [done | destruct (0 <? r - l); auto].
  - injection Hrun as <-. split; [lia | by left].
Qed.

Section Search_theorems.
Context `{StdSort}.

(** X12.  A query with more coordinates than the points of the tree is
    answered as the query cut to the size of those points: the two searches
    read its first coordinates only and raise nothing. *)
Theorem searches_long_query T_max k (pts : list Point) (q : Point) fuel :
  buildable k pts → (k ≤ Point_size q)%nat → (length pts ≤ fuel)%nat →
  ∃ t, Tree_new pts = Ok t ∧
       findNN T_max t q = findNN T_max t (take k q) ∧
       findNN_brute_force T_max fuel t q =
       findNN_brute_force T_max fuel t (take k q).
Proof.
  unfold Point_size. intros Hb Hq Hfuel.
  destruct (buildable_Built k [] pts 0 Hb) as (t & Ht & HB).
  pose proof (Built_searchable _ _ _ _ _ _ Hb HB) as Hs.
  exists t. split; [done|]. split.
  - unfold findNN. by rewrite findNN__take.
  - unfold findNN_brute_force. rewrite !(Built_for_range _ k pts) by done.
    rewrite (run_body_ext (brute_force_body t q)
               (brute_force_body t (take k q))); [done|].
    intros p b (a & -> & Ha)%list_elem_of_fmap.
    apply node_addrs_elem in Ha as (rel & -> & [n Hn]).
    rewrite app_nil_r. unfold brute_force_body.
    rewrite (deref_at _ _ _ Hn). cbn [mbind result_bind].
    rewrite distance_to_take; [done| |done].
    destruct Hs as (_ & _ & Hsz). rewrite list.Forall_forall in Hsz.
    apply Hsz. apply list_elem_of_fmap_2. by apply (node_at_nodes t rel).
Qed.



End Search_theorems.

Lemma searches_return_tree_points_witness :
  (findNN INT_MAX (single [0; 0]) [1; 1] = Ok [0; 0] ∨
   findNN_brute_force INT_MAX 1 (single [0; 0]) [1; 1] = Ok [0; 0]) ∧
  [0; 0] ∈ points (single [0; 0]).
Proof.
  assert (Hrun : findNN INT_MAX (single [0; 0]) [1; 1] = Ok [0; 0] ∨
                 findNN_brute_force INT_MAX 1 (single [0; 0]) [1; 1] = Ok [0; 0])
    by (left; reflexivity).
  split; [exact Hrun|].
  exact (searches_return_tree_points INT_MAX 1 (single [0; 0]) [1; 1] [0; 0] Hrun).
Defined.

Lemma findNN__enters_once_witness :
  findNN_ two_nodes [9; 4] (findNN_init INT_MAX two_nodes)
  = Ok (mkState [5; 4] 16 [[5; 4]]) ∧
  ∃ entered,
    calls (mkState [5; 4] 16 [[5; 4]])
    = calls (findNN_init INT_MAX two_nodes) ++ split_point two_nodes :: entered ∧
    split_point two_nodes :: entered ⊆+ points two_nodes ∧
    Nat.le (length (calls (mkState [5; 4] 16 [[5; 4]])))
           (length (calls (findNN_init INT_MAX two_nodes))
            + length (nodes two_nodes)).
Proof.
  split; [reflexivity|].
  exact (findNN__enters_once two_nodes [9; 4] (findNN_init INT_MAX two_nodes)
           (mkState [5; 4] 16 [[5; 4]]) eq_refl).
Defined.

Lemma searches_long_query_witness :
  buildable 2 wiki ∧ Nat.le 2 (Point_size [9; 2; 7]%Z) ∧ Nat.le (length wiki) 6 ∧
  ∃ t, Tree_new wiki = Ok t ∧
       findNN INT_MAX t [9; 2; 7] = findNN INT_MAX t (take 2 [9; 2; 7]) ∧
       findNN_brute_force INT_MAX 6 t [9; 2; 7] =
       findNN_brute_force INT_MAX 6 t (take 2 [9; 2; 7]).
Proof.
  split; [exact buildable_wiki|]. split; [vm_compute; lia|].
  split; [vm_compute; lia|].
  apply (searches_long_query INT_MAX 2 wiki [9; 2; 7] 6 buildable_wiki);
    vm_compute; lia.
Defined.






Lemma findNN__keeps_best_witness :
  findNN_ two_nodes [9; 4] (findNN_init INT_MAX two_nodes)
  = Ok (mkState [5; 4] 16 [[5; 4]]) ∧
  best_dist (mkState [5; 4] 16 [[5; 4]])
  ≤ best_dist (findNN_init INT_MAX two_nodes) ∧
  (best (mkState [5; 4] 16 [[5; 4]]) = best (findNN_init INT_MAX two_nodes) ∨
   best_dist (mkState [5; 4] 16 [[5; 4]])
   < best_dist (findNN_init INT_MAX two_nodes) ∧
   best_point (mkState [5; 4] 16 [[5; 4]]) ∈ points two_nodes ∧
   distance_to (best_point (mkState [5; 4] 16 [[5; 4]])) [9; 4]
   = Ok (best_dist (mkState [5; 4] 16 [[5; 4]]))).
Proof.
  split; [reflexivity|].
  exact (findNN__keeps_best two_nodes [9; 4] (findNN_init INT_MAX two_nodes)
           (mkState [5; 4] 16 [[5; 4]]) eq_refl).
Defined.

(** * Iteration *)

(** ** A root object whose [parent_] was never assigned *)

Section Iterator_unset_root.
Variable root : Tree.
Hypothesis Hbelow : linked_below root.
Hypothesis Htop : parent_ root = indeterminate.

Lemma climb_unset (p : list link) : ∀ t fuel,
  node_at root p = Some t → (length p < fuel)%nat →
  climb fuel root p (parent_ t) = (λ _, climbed p) <$> next_up_unset p.
Proof.
  induction p as [|lk a IH]; intros t fuel Hp Hfuel;
    (destruct fuel as [|fuel]; [simpl in Hfuel; lia|]).
  { injection Hp as <-. by rewrite Htop. }
  rewrite (Hbelow _ _ t Hp). cbn [climb].
  destruct (node_at_parent _ _ _ _ Hp) as (pn & Hpn & Hc).
  rewrite (load_at _ _ _ Hpn). cbn [mbind result_bind].
  destruct lk; cbn [climbed next_up_unset].
  - assert (ptr_eqb (child_ptr right_link a pn) (at_address (left_link :: a))
            = false) as ->; [|done].
    apply ptr_eqb_false. unfold child_ptr. by destruct (child right_link pn).
  - assert (ptr_eqb (child_ptr right_link a pn) (at_address (right_link :: a))
            = true) as ->.
    { apply ptr_eqb_true. unfold child_ptr. by rewrite Hc. }
    apply IH; [done | simpl in Hfuel; lia].
Qed.

Lemma next_up_unset_cases (p : list link) :
  next_up_unset p = Err undefined_behaviour ∨
  ∃ pre a, p = pre ++ left_link :: a ∧
           climbed p = (left_link :: a, at_address a) ∧
           next_up_unset p = Ok (at_address a).
Proof.
  induction p as [|[] a IH]; simpl.
  - by left.
  - right. by exists [], a.
  - destruct IH as [?|(pre & a' & -> & ? & ?)]; [by left|].
    right. by exists (right_link :: pre), a'.
Qed.

(** [operator++] at a node without right child. *)
Lemma operator_inc_ascend_unset (p : list link) t bound :
  node_at root p = Some t → right_child_ t = None → (length p < bound)%nat →
  operator_inc bound root (at_address p) = next_up_unset p.
Proof.
  intros Hp Hr Hbound. unfold operator_inc.
  rewrite (load_at _ _ _ Hp). cbn [mbind result_bind]. rewrite Hr.
  rewrite (climb_unset p t) by done.
  destruct (next_up_unset_cases p) as [->|(pre & a & Hpre & Hc & ->)]; [done|].
  cbn [fmap result_fmap mbind result_bind]. rewrite Hc.
  destruct (node_at_suffix root pre (left_link :: a)) as [n Hn].
  { rewrite <- Hpre. by exists t. }
  rewrite (load_at _ _ _ Hn). cbn [mbind result_bind].
  assert (ptr_eqb (child_ptr right_link (left_link :: a) n) (at_address a)
          = false) as ->; [|done].
  apply ptr_eqb_false. unfold child_ptr.
  destruct (child right_link n); [|done].
  intros [= E]. apply (f_equal length) in E. simpl in E. lia.
Qed.

(** Started at the leftmost node of a subtree, the loop runs its body on the
    nodes of the subtree in order; what follows depends on where the
    subtree hangs. *)
Lemma for_range_subtree_unset {St} (body : ptr → St → result St) bound
    (t : Tree) :
  ∀ a fuel s,
    node_at root a = Some t → (length a + height t ≤ bound)%nat →
    for_range_ bound (length (nodes t) + fuel) root
      (at_address (leftmost t a)) body s =
    run_body body (at_address <$> node_addrs t a) s
    ≫= λ s', next_up_unset a ≫= λ it, for_range_ bound fuel root it body s'.
Proof.
  induction t as [t IHl IHr] using Tree_ind. intros a fuel s Ha Hbound.
  rewrite nodes_unfold, length_app, node_addrs_unfold, leftmost_unfold.
  rewrite height_unfold in Hbound. cbn [length].
  assert (Hself : ∀ s,
    for_range_ bound (S (length (nodes_of (right_child_ t)) + fuel)) root
      (at_address a) body s =
    run_body body
      (at_address a :: (at_address <$> child_addrs right_link a (right_child_ t))) s
    ≫= λ s', next_up_unset a ≫= λ it, for_range_ bound fuel root it body s').
  { intros s'. cbn [for_range_ run_body].
    replace (ptr_eqb (at_address a) end_) with false by done.
    destruct (body (at_address a) s') as [s''|e]; cbn [mbind result_bind]; [|done].
    destruct (right_child_ t) as [r|] eqn:Hr.
    - rewrite (operator_inc_right root a t r) by done. cbn [mbind result_bind].
      simpl in Hbound.
      rewrite (IHr r) by (first [done | by apply (node_at_child _ _ _ t) | simpl; lia]).
      done.
    - rewrite (operator_inc_ascend_unset a t) by (first [done | lia]).
      cbn [child_addrs fmap list_fmap run_body mbind result_bind]. done. }
  destruct (left_child_ t) as [l|] eqn:Hl.
  - replace (length (nodes_of (Some l)) + S (length (nodes_of (right_child_ t))) + fuel)%nat
      with (length (nodes l) + S (length (nodes_of (right_child_ t)) + fuel))%nat
      by (simpl; lia).
    simpl in Hbound.
    rewrite (IHl l) by (first [done | by apply (node_at_child _ _ _ t) | simpl; lia]).
    cbn [child_addrs next_up_unset]. rewrite fmap_app, run_body_app, fmap_cons.
    destruct (run_body body (at_address <$> node_addrs l _) s) as [s'|e];
      cbn [mbind result_bind]; [|done].
    apply Hself.
  - apply Hself.
Qed.
End Iterator_unset_root.

(** The whole loop over such a tree: the body runs on every node, and the
    increment after the last one reads the root's [parent_]. *)
Lemma for_range_unset {St} (body : ptr → St → result St) (t : Tree) fuel s :
  linked_below t → parent_ t = indeterminate →
  Forall left_first (nodes t) → (length (nodes t) ≤ fuel)%nat →
  for_range fuel t body s =
  run_body body (at_address <$> node_addrs t []) s
  ≫= λ _, Err undefined_behaviour.
Proof.
  intros Hbelow Htop Hlf Hfuel. unfold for_range.
  rewrite begin_leftmost by done. cbn [mbind result_bind].
  replace fuel with (length (nodes t) + (fuel - length (nodes t)))%nat at 2 by lia.
  rewrite (for_range_subtree_unset t Hbelow Htop); [done|done|].
  pose proof (height_le_nodes t). simpl. lia.
Qed.

(** ** The order of iteration *)

(** When every node splits along the first axis, the points of the tree are
    in ascending order from left to right. *)
Lemma first_axis_sorted (t : Tree) :
  Forall splits (nodes t) → Forall (λ n, split_axis_ n = 0%nat) (nodes t) →
  StronglySorted (axis_le 0) (points t).
Proof.
  induction t as [t IHl IHr] using Tree_ind. intros Hs Hax.
  rewrite nodes_unfold in Hs, Hax.
  apply Forall_app in Hs as [Hsl Hs]. apply Forall_cons_1 in Hs as [Hst Hsr].
  apply Forall_app in Hax as [Haxl Hax].
  apply Forall_cons_1 in Hax as [Haxt Haxr].
  destruct Hst as [Hle Hge]. rewrite Haxt in Hle, Hge.
  rewrite points_unfold.
  assert (Hl : StronglySorted (axis_le 0) (points_of (left_child_ t))).
  { destruct (left_child_ t) as [l|] eqn:El; [|constructor].
    by apply (IHl l). }
  assert (Hr : StronglySorted (axis_le 0) (points_of (right_child_ t))).
  { destruct (right_child_ t) as [r|] eqn:Er; [|constructor].
    by apply (IHr r). }
  apply StronglySorted_app_2; [|done|].
  - intros x1 x2 Hx1 [->|Hx2]%elem_of_cons; [by apply Hle|].
    unfold axis_le. specialize (Hle x1 Hx1). specialize (Hge x2 Hx2). lia.
  - constructor; [done|]. apply list.Forall_forall. intros x Hx.
    by apply Hge.
Qed.

Section Iteration_facts.
Context `{StdSort}.

(** The split axis of a node is its depth modulo the dimensionality. *)
Lemma Built_axes k this (pts : list Point) depth par o :
  Built k this pts depth par o →
  ∀ t, o = Some t → ∀ rel n, node_at t rel = Some n →
    split_axis_ n = ((depth + length rel) mod k)%nat ∧ dims_ n = k.
Proof.
  induction 1 as [|this pts depth par median l r Hne Hmed _ IHl _ IHr];
    [done|].
  intros t [= <-] rel n Hn.
  destruct rel as [|lk rel' _] using rev_ind.
  { injection Hn as <-. simpl. by rewrite Nat.add_0_r. }
  rewrite node_at_snoc in Hn.
  assert (Hchild : ∃ c, child lk (mkTree l r par (depth mod k)%nat k median)
                        = Some c ∧ node_at c rel' = Some n).
  { destruct (child lk _) as [c|]; [by exists c | done]. }
  destruct Hchild as (c & Hc & Hn').
  rewrite length_app. simpl.
  replace (depth + (length rel' + 1))%nat with (S depth + length rel')%nat by lia.
  destruct lk; simpl in Hc; [by apply (IHl c) | by apply (IHr c)].
Qed.

Lemma Built_linked_below k (pts : list Point) depth par t :
  Built k [] pts depth par (Some t) → linked_below t ∧ parent_ t = par.
Proof.
  intros HB. split.
  - intros lk a n Hn.
    rewrite (Built_parents _ _ _ _ _ _ HB t eq_refl (lk :: a) n Hn).
    by rewrite app_nil_r.
  - by apply (Built_parents _ _ _ _ _ _ HB t eq_refl [] t).
Qed.


(** X18.  On a tree of one-dimensional points the loop [for (const auto&
    point : tree)] yields the points supplied, each once, in ascending
    order. *)
Theorem iteration_ascending (pts : list Point) fuel :
  buildable 1 pts → (length pts ≤ fuel)%nat →
  ∃ t yielded,
    Tree_new pts = Ok t ∧
    for_range fuel t (collect t) [] = Ok yielded ∧
    yielded ≡ₚ pts ∧
    StronglySorted (axis_le 0) yielded.
Proof.
  intros Hb Hfuel. destruct (buildable_Built 1 [] pts 0 Hb) as (t & Ht & HB).
  exists t, (points t). split; [done|]. split; [|split].
  - rewrite (Built_for_range _ 1 pts) by done.
    by rewrite (run_body_collect t _ (nodes t)) by by apply node_addrs_nodes.
  - by apply Built_points in HB.
  - apply first_axis_sorted.
    + by apply Built_splits in HB.
    + pose proof (Built_dims 1 _ _ _ _ _ ltac:(lia) HB) as Hd. simpl in Hd.
      apply (list.Forall_impl _ _ _ Hd). intros n [_ ?]. lia.
Qed.

(** X19.  The split axes cycle with the depth: a node that lies [d] child
    links below the root splits along axis [d mod k], an axis that its point
    and every query of [k] coordinates have, and its [dims_] is [k]. *)
Theorem Tree_new_axes k (pts : list Point) :
  buildable k pts →
  ∃ t, Tree_new pts = Ok t ∧
       ∀ a n, node_at t a = Some n →
         split_axis_ n = (length a mod k)%nat ∧
         dims_ n = k ∧
         Point_size (split_point n) = k ∧
         (split_axis_ n < Point_size (split_point n))%nat.
Proof.
  intros Hb. destruct (buildable_Built k [] pts 0 Hb) as (t & Ht & HB).
  exists t. split; [done|]. intros a n Hn.
  destruct (Built_axes _ _ _ _ _ _ HB t eq_refl a n Hn) as [Hax Hd].
  simpl in Hax. destruct (Built_searchable _ _ _ _ _ _ Hb HB) as (_ & _ & Hsz).
  rewrite list.Forall_forall in Hsz.
  assert (length (split_point n) = k) as Hk.
  { apply Hsz, list_elem_of_fmap_2. by apply (node_at_nodes t a). }
  unfold Point_size. rewrite Hk, Hax. repeat split; try done.
  apply Nat.mod_upper_bound. destruct Hb as (_ & ? & _). lia.
Qed.
End Iteration_facts.


Lemma iteration_ascending_witness :
  buildable 1 [[5]; [2]; [9]; [2]] ∧
  ∃ t yielded,
    Tree_new [[5]; [2]; [9]; [2]] = Ok t ∧
    for_range 4 t (collect t) [] = Ok yielded ∧
    yielded ≡ₚ [[5]; [2]; [9]; [2]] ∧
    StronglySorted (axis_le 0) yielded.
Proof.
  assert (Hb : buildable 1 [[5]; [2]; [9]; [2]]).
  { split; [done|]. split; [lia|]. by repeat constructor. }
  split; [exact Hb|].
  exact (iteration_ascending [[5]; [2]; [9]; [2]] 4 Hb (le_n 4)).
Defined.

Lemma Tree_new_axes_witness :
  buildable 2 wiki ∧
  ∃ t, Tree_new wiki = Ok t ∧
       ∀ a n, node_at t a = Some n →
         split_axis_ n = (length a mod 2)%nat ∧
         dims_ n = 2%nat ∧
         Point_size (split_point n) = 2%nat ∧
         (split_axis_ n < Point_size (split_point n))%nat.
Proof.
  split; [exact buildable_wiki|].
  exact (Tree_new_axes 2 wiki buildable_wiki).
Defined.

(** ** Single steps of the iterator *)

(** The loop that records positions only ever adds to its record. *)
Lemma for_range__extends bound root : ∀ fuel it seen seen',
  for_range_ bound fuel root it record_visit seen = Ok seen' →
  ∃ more, seen' = seen ++ more.
Proof.
  intros fuel it seen seen' Hrun.
  refine (for_range__invariant (λ s, ∃ more, s = seen ++ more)
            _ _ _ _ _ _ _ _ _ Hrun).
  - intros it0 s s' [more ->] [= <-]. exists (more ++ [it0]).
    by rewrite app_assoc.
  - exists []. by rewrite app_nil_r.
Qed.

(** Every position that the loop records is followed in the record by the
    position that [operator++] leads to from it. *)
Lemma for_range__steps bound root (positions : list ptr) : ∀ fuel it seen,
  for_range_ bound fuel root it record_visit seen = Ok (seen ++ positions) →
  it = default end_ (positions !! O) ∧
  ∀ i p, positions !! i = Some p →
    operator_inc bound root p = Ok (default end_ (positions !! S i)).
Proof.
  induction positions as [|p rest IH]; intros fuel it seen Hrun.
  - split; [|done]. destruct fuel; simpl in Hrun.
    + destruct (ptr_eqb it end_) eqn:E; [by apply ptr_eqb_true in E | done].
    + destruct (ptr_eqb it end_) eqn:E; [by apply ptr_eqb_true in E|].
      apply bind_Ok in Hrun as (it' & _ & Hrun).
      apply for_range__extends in Hrun as [more Hmore].
      rewrite app_nil_r, <- app_assoc in Hmore.
      apply (f_equal length) in Hmore. rewrite length_app in Hmore.
      simpl in Hmore. lia.
  - assert (Hne : seen ++ p :: rest ≠ seen).
    { intros E. apply (f_equal length) in E. rewrite length_app in E.
      simpl in E. lia. }
    destruct fuel; simpl in Hrun.
    + destruct (ptr_eqb it end_); [by injection Hrun as E | done].
    + destruct (ptr_eqb it end_); [by injection Hrun as E|].
      apply bind_Ok in Hrun as (it' & Hinc & Hrun).
      destruct (for_range__extends _ _ _ _ _ _ Hrun) as [more Hmore].
      rewrite <- app_assoc in Hmore. apply app_inv_head in Hmore.
      injection Hmore as <- _.
      replace (seen ++ p :: rest) with ((seen ++ [p]) ++ rest) in Hrun
        by by rewrite <- app_assoc.
      destruct (IH _ _ _ Hrun) as [-> Hrest].
      split; [done|]. intros [|i] p' Hp'; simpl in Hp'.
      * by injection Hp' as <-.
      * by apply Hrest.
Qed.

Section Step_theorem.
Context `{StdSort}.

(** X20.  On a constructed tree [begin()] is at the leftmost node, and a
    single [operator++] leads from every node to the next node from left to
    right, and from the last node to [end()]. *)
Theorem operator_inc_successor k (pts : list Point) fuel :
  buildable k pts → (length pts ≤ fuel)%nat →
  ∃ t positions,
    Tree_new pts = Ok t ∧
    load t <$> positions = Ok <$> nodes t ∧
    begin t = Ok (default end_ (positions !! O)) ∧
    ∀ i p, positions !! i = Some p →
      operator_inc fuel t p = Ok (default end_ (positions !! S i)).
Proof.
  intros Hb Hfuel. destruct (buildable_Built k [] pts 0 Hb) as (t & Ht & HB).
  exists t, (at_address <$> node_addrs t []). split; [done|].
  split; [by apply load_addrs, node_addrs_nodes|].
  pose proof (Built_for_range record_visit k pts t fuel [] HB Hfuel) as Hrun.
  rewrite run_body_record_visit in Hrun. unfold for_range in Hrun.
  apply bind_Ok in Hrun as (first & Hfirst & Hrun).
  change (at_address <$> node_addrs t [])
    with ([] ++ (at_address <$> node_addrs t [])) in Hrun.
  apply for_range__steps in Hrun as [-> Hsteps]. split; done.
Qed.
End Step_theorem.

Lemma operator_inc_successor_witness :
  buildable 2 wiki ∧ Nat.le (length wiki) 6 ∧
  ∃ t positions,
    Tree_new wiki = Ok t ∧
    load t <$> positions = Ok <$> nodes t ∧
    begin t = Ok (default end_ (positions !! O)) ∧
    ∀ i p, positions !! i = Some p →
      operator_inc 6 t p = Ok (default end_ (positions !! S i)).
Proof.
  split; [exact buildable_wiki|]. split; [vm_compute; lia|].
  exact (operator_inc_successor 2 wiki 6 buildable_wiki (le_n 6)).
Defined.

(** * Construction and the caller's container *)

Section In_place_facts.
Context `{StdSort}.

Lemma RecursiveInit_in_place_moves fuel : ∀ this (pts : list Point) depth,
  RecursiveInit_in_place fuel this pts depth =
  (λ t, (t, replicate (length pts) Point_default))
    <$> RecursiveInit_ fuel this pts depth.
Proof.
  induction fuel as [|fuel IH]; intros this pts depth; [done|].
  cbn [RecursiveInit_in_place RecursiveInit_].
  destruct (if Nat.eqb depth 0 then validate_sizes pts None else Ok ())
    as [[]|e]; [|done].
  cbn [mbind result_bind].
  destruct pts as [|p0 pts]; [done|]. cbn [mbind result_bind]. cbn zeta.
  destruct (Nat.eqb (Point_size p0) 0); [done|].
  set (axis := (depth mod Point_size p0)%nat).
  destruct (comparator_throws axis (p0 :: pts)); [done|].
  set (all := p0 :: pts). set (m := (length all / 2)%nat).
  destruct (std_sort axis all !! m) as [median|] eqn:Hmed; [|done].
  cbn [mbind result_bind Point_move_assign].
  pose proof (lookup_lt_Some _ _ _ Hmed) as Hm.
  rewrite std_sort_length in Hm.
  assert (Hlen : (length (take m (std_sort axis all)) + 1 +
                  length (drop (S m) (std_sort axis all)) = length all)%nat).
  { rewrite length_take, length_drop, std_sort_length. lia. }
  set (before := take m (std_sort axis all)) in *.
  set (after := drop (S m) (std_sort axis all)) in *.
  assert (Hleft : ∃ rl,
    (if Nat.leb (length before) 0 then Ok None
     else l ← RecursiveInit_ fuel (left_link :: this) before (S depth);
          Ok (Some (set_parent_ l (at_address this)))) = rl ∧
    (if Nat.leb (length before) 0 then Ok (None, before)
     else '(l, before0) ← RecursiveInit_in_place fuel (left_link :: this)
                            before (S depth);
          Ok (Some (set_parent_ l (at_address this)), before0))
    = (λ c, (c, replicate (length before) Point_default)) <$> rl).
  { eexists. split; [done|].
    destruct (Nat.leb_spec (length before) 0) as [Hz|_].
    - destruct before; [done | simpl in Hz; lia].
    - rewrite IH. by destruct (RecursiveInit_ fuel _ before _). }
  assert (Hright : ∃ rr,
    (if Nat.leb (length after) 0 then Ok None
     else r ← RecursiveInit_ fuel (right_link :: this) after (S depth);
          Ok (Some (set_parent_ r (at_address this)))) = rr ∧
    (if Nat.leb (length after) 0 then Ok (None, after)
     else '(r, after0) ← RecursiveInit_in_place fuel (right_link :: this)
                           after (S depth);
          Ok (Some (set_parent_ r (at_address this)), after0))
    = (λ c, (c, replicate (length after) Point_default)) <$> rr).
  { eexists. split; [done|].
    destruct (Nat.leb_spec (length after) 0) as [Hz|_].
    - destruct after; [done | simpl in Hz; lia].
    - rewrite IH. by destruct (RecursiveInit_ fuel _ after _). }
  destruct Hleft as (rl & -> & ->), Hright as (rr & -> & ->).
  destruct rl as [l|e]; [|done]. cbn [fmap result_fmap mbind result_bind].
  destruct rr as [r|e]; [|done]. cbn [fmap result_fmap mbind result_bind].
  do 2 f_equal. rewrite <- Hlen.
  rewrite !replicate_add. cbn [replicate]. by rewrite <- app_assoc.
Qed.

(** X21.  Construction takes the points out of the caller's container.
    Whatever the container holds and whatever the depth, [Tree(Container&&
    input, int depth)] makes the tree, or raises the error, that
    [RecursiveInit] makes of the range; and when it returns, the container
    holds as many points as before, each of them without coordinates, so
    that reading any coordinate of any of them throws [std::out_of_range]. *)
Theorem Tree_new_in_place_moves (input : list Point) depth :
  fst <$> Tree_new_in_place input depth = RecursiveInit [] input depth ∧
  ∀ t input', Tree_new_in_place input depth = Ok (t, input') →
    length input' = length input ∧
    ∀ p, p ∈ input' →
      Point_size p = 0%nat ∧ ∀ i, Point_index p i = Err out_of_range.
Proof.
  unfold Tree_new_in_place, RecursiveInit.
  rewrite RecursiveInit_in_place_moves. split.
  - by destruct (RecursiveInit_ _ _ _ _).
  - intros t input' (t' & _ & [= _ ->])%fmap_Ok.
    split; [apply length_replicate|].
    by intros p [-> _]%elem_of_replicate.
Qed.

(** X22.  The ways in which construction ends without a tree. It runs into
    undefined behaviour exactly when no point has a coordinate: on the empty
    collection, where it reads the size of a first point that is not there,
    and on points of size zero, where the split axis is a remainder modulo
    zero. It never throws [std::out_of_range], and the recursion ends. *)
Theorem Tree_new_undefined (pts : list Point) :
  (Tree_new pts = Err undefined_behaviour ↔
   Forall (λ p, Point_size p = 0%nat) pts) ∧
  Tree_new pts ≠ Err out_of_range ∧
  Tree_new pts ≠ Err out_of_fuel.
Proof.
  destruct pts as [|p pts].
  { split; [|done]. split; [by constructor | done]. }
  assert (Hcases :
    (Tree_new (p :: pts) = Err undefined_behaviour ∧
     Forall (λ p, Point_size p = 0%nat) (p :: pts)) ∨
    ((Tree_new (p :: pts) = Err assertion_failed ∨
      ∃ t, Tree_new (p :: pts) = Ok t) ∧
     ¬ Forall (λ p, Point_size p = 0%nat) (p :: pts))).
  { destruct (validate_sizes_Some_inv pts (Point_size p)) as [[Hv Hall]|[Hv Hno]].
    - destruct (Nat.eq_dec (Point_size p) 0%nat) as [Hz|Hnz].
      + left. split.
        * unfold Tree_new, RecursiveInit.
          cbn [length RecursiveInit_ Nat.eqb validate_sizes]. rewrite Hv.
          cbn [mbind result_bind]. by rewrite Hz.
        * constructor; [done|]. rewrite <- Hz. exact Hall.
      + right. split.
        * right. destruct (Tree_new_Built (Point_size p) (p :: pts))
            as (t & Ht & _); [done | by constructor | lia | by exists t].
        * intros Hzero. by inversion Hzero.
    - right. split.
      + left. unfold Tree_new, RecursiveInit.
        cbn [length RecursiveInit_ Nat.eqb validate_sizes]. by rewrite Hv.
      + intros Hzero. apply Hno. inversion Hzero as [|? ? Hp Hpts]; subst.
        unfold Point_size in *. rewrite Hp.
        exact Hpts. }
  destruct Hcases as [[-> Hall]|[[->|[t ->]] Hno]]; repeat split; done.
Qed.
End In_place_facts.

(** * Output *)

Lemma put_at_end (s : chars) (b : chars) :
  put s (mkBuffer b (length b) false) = mkBuffer (b ++ s) (length (b ++ s)) false.
Proof.
  unfold put. cbn [failbit put_pos str].
  rewrite firstn_all, drop_ge by lia. by rewrite app_nil_r, length_app.
Qed.

(** Moving the put position back by two and writing one character replaces
    the last character but one. *)
Lemma put_back_two (b : chars) (x y c : Ascii.ascii) :
  str (put [c] (seekp_end 2 (mkBuffer (b ++ [x; y]) (length (b ++ [x; y])) false)))
  = b ++ [c; y].
Proof.
  unfold seekp_end. cbn [failbit str]. rewrite length_app. cbn [length].
  destruct (Nat.ltb_spec (length b + 2) 2) as [Hlt|_]; [lia|].
  unfold put. cbn [failbit str put_pos length].
  replace (length b + 2 - 2)%nat with (length b) by lia.
  rewrite take_app_length.
  replace (length b + 1)%nat with (length (b ++ [x])) by (rewrite length_app; simpl; lia).
  change (b ++ [x; y]) with (b ++ [x] ++ [y]).
  by rewrite (app_assoc b [x] [y]), drop_app_length.
Qed.

Section Printing_facts.
Variable show : Z → chars.

(** The loop writes every coordinate followed by a comma and a space. *)
Lemma print_coords_at_end (data : list Z) : ∀ b,
  print_coords show data (mkBuffer b (length b) false) =
  mkBuffer (b ++ flat_map (λ x, show x ++ lit ", ") data)
           (length (b ++ flat_map (λ x, show x ++ lit ", ") data)) false.
Proof.
  induction data as [|x data IH]; intros b; cbn [print_coords flat_map].
  - by rewrite app_nil_r.
  - rewrite !put_at_end, IH. by rewrite <- !app_assoc.
Qed.

Lemma flat_map_separated (data : list Z) :
  data ≠ [] →
  flat_map (λ x, show x ++ lit ", ") data
  = separated show (lit ", ") data ++ lit ", ".
Proof.
  induction data as [|x [|y data] IH]; intros Hne; [done| |].
  - cbn [flat_map separated]. by rewrite app_nil_r.
  - change (flat_map _ (x :: y :: data))
      with ((show x ++ lit ", ") ++ flat_map (λ x, show x ++ lit ", ") (y :: data)).
    rewrite IH by done. cbn [separated]. by rewrite <- !app_assoc.
Qed.

(** X23.  What [operator<<] writes for a point: the coordinates between
    parentheses, separated by a comma and a space; the space after the last
    comma stays behind the closing parenthesis. For a point without
    coordinates, as every point is that has been moved from, it is the
    opening parenthesis alone: the put position cannot be moved back by two,
    and the failed stream takes no further character. *)
Theorem Point_str_text :
  Point_str show [] = lit "(" ∧
  ∀ x point,
    Point_str show (x :: point)
    = lit "(" ++ separated show (lit ", ") (x :: point) ++ lit ") ".
Proof.
  unfold Point_str. cbn zeta.
  change (put (lit "(") ostringstream_new)
    with (mkBuffer (lit "(") (length (lit "(")) false).
  split; [done|]. intros x point.
  rewrite print_coords_at_end, flat_map_separated by done.
  change (lit ", ") with [","%char; " "%char].
  change (put (lit ")")) with (put [")"%char]).
  rewrite app_assoc, put_back_two. by rewrite <- app_assoc.
Qed.
End Printing_facts.

Lemma emit_indent (depth : nat) (stream : ostream) :
  emit (lit " ") (setw (depth * 4) stream)
  = mkStream (written stream ++ indentation depth) 0.
Proof.
  unfold emit, setw, indentation, spaces. cbn [written width]. do 2 f_equal.
  change (length (lit " ")) with 1%nat. change (lit " ") with [" "%char].
  destruct (depth * 4)%nat as [|n]; [done|].
  replace (S n - 1)%nat with n by lia. rewrite Nat.max_l by lia.
  by rewrite <- replicate_cons_app.
Qed.

Lemma emit_plain (s : chars) (w : chars) :
  emit s (mkStream w 0) = mkStream (w ++ s) 0.
Proof. done. Qed.

Lemma print_Tree_unfold show fuel root (tree : Tree) (stream : ostream) :
  print_Tree show fuel root tree stream =
  (stream ← match right_child_ tree with
            | Some r => print_Tree show fuel root r stream
            | None => Ok stream
            end;
   depth ← depth_loop fuel root (parent_ tree) 0;
   let indent := (depth * 4)%nat in
   let stream := emit (lit " ") (setw indent stream) in
   let stream := match right_child_ tree with
                 | Some _ =>
                     emit (lit " ") (setw indent (emit (lit " /" ++ [LF]) stream))
                 | None => stream
                 end in
   let stream := emit (LF :: lit " ") (print_Point show (split_point tree) stream) in
   match left_child_ tree with
   | Some l =>
       let stream := emit (lit " \" ++ [LF]) (emit (lit " ") (setw indent stream)) in
       print_Tree show fuel root l stream
   | None => Ok stream
   end).
Proof. by destruct tree. Qed.

Lemma node_lines_unfold show (n : Tree) depth :
  node_lines show n depth =
  indentation depth ++
  match right_child_ n with
  | Some _ => lit " /" ++ [LF] ++ indentation depth
  | None => []
  end ++
  Point_str show (split_point n) ++ LF :: lit " " ++
  match left_child_ n with
  | Some _ => indentation depth ++ lit " \" ++ [LF]
  | None => []
  end.
Proof. done. Qed.

Lemma nodes_rev_unfold (t : Tree) depth :
  nodes_rev t depth =
  match right_child_ t with Some r => nodes_rev r (S depth) | None => [] end
  ++ (t, depth) ::
  match left_child_ t with Some l => nodes_rev l (S depth) | None => [] end.
Proof. by destruct t. Qed.

(** The nodes are listed in the reverse of the order of iteration. *)
Lemma nodes_rev_reverse (t : Tree) : ∀ depth,
  (nodes_rev t depth).*1 = reverse (nodes t).
Proof.
  induction t as [t IHl IHr] using Tree_ind. intros depth.
  rewrite nodes_rev_unfold, nodes_unfold, fmap_app, fmap_cons.
  rewrite reverse_app, reverse_cons, <- app_assoc. cbn [fst]. f_equal.
  - destruct (right_child_ t) as [r|]; [by apply IHr | done].
  - simpl. f_equal. destruct (left_child_ t) as [l|]; [by apply IHl | done].
Qed.

(** Every node is listed with its depth. *)
Lemma nodes_rev_depth (t : Tree) : ∀ depth n d,
  (n, d) ∈ nodes_rev t depth →
  ∃ rel, node_at t rel = Some n ∧ d = (depth + length rel)%nat.
Proof.
  induction t as [t IHl IHr] using Tree_ind. intros depth n d.
  rewrite nodes_rev_unfold, elem_of_app, elem_of_cons.
  assert (Hchild : ∀ lk c rel, child lk t = Some c →
            node_at c rel = Some n → node_at t (rel ++ [lk]) = Some n).
  { intros lk c rel Hc Hn. rewrite node_at_snoc, Hc. done. }
  intros [Hr|[[= -> ->]|Hl]].
  - destruct (right_child_ t) as [r|] eqn:Er; [|by apply elem_of_nil in Hr].
    destruct (IHr r eq_refl _ _ _ Hr) as (rel & Hn & ->).
    exists (rel ++ [right_link]). split; [by apply (Hchild _ r)|].
    rewrite length_app. simpl. lia.
  - exists []. split; [done | simpl; lia].
  - destruct (left_child_ t) as [l|] eqn:El; [|by apply elem_of_nil in Hl].
    destruct (IHl l eq_refl _ _ _ Hl) as (rel & Hn & ->).
    exists (rel ++ [left_link]). split; [by apply (Hchild _ l)|].
    rewrite length_app. simpl. lia.
Qed.

Section Print_Tree_facts.
Variable show : Z → chars.
Variable root : Tree.
Hypothesis Hlinked : linked root.

(** The loop along [parent_] counts the links to the root. *)
Lemma depth_loop_depth (a : list link) : ∀ n fuel depth,
  node_at root a = Some n → (length a < fuel)%nat →
  depth_loop fuel root (parent_ n) depth = Ok (depth + length a)%nat.
Proof.
  induction a as [|lk a IH]; intros n fuel depth Hn Hfuel;
    (destruct fuel as [|fuel]; [simpl in Hfuel; lia|]);
    rewrite (Hlinked _ n Hn); cbn [depth_loop length].
  - by rewrite Nat.add_0_r.
  - destruct (node_at_parent _ _ _ _ Hn) as (pn & Hpn & _).
    rewrite (load_at _ _ _ Hpn). cbn [mbind result_bind].
    rewrite (IH pn) by (first [done | simpl in Hfuel; lia]).
    f_equal. lia.
Qed.

(** [operator<<] writes the lines of the right subtree, those of the node,
    then those of the left subtree. *)
Lemma print_Tree_subtree fuel (t : Tree) : ∀ a stream,
  node_at root a = Some t → (length a + height t ≤ fuel)%nat →
  print_Tree show fuel root t stream =
  Ok (mkStream (written stream ++
                flat_map (λ nd, node_lines show nd.1 nd.2)
                         (nodes_rev t (length a))) 0).
Proof.
  induction t as [t IHl IHr] using Tree_ind. intros a stream Ha Hfuel.
  rewrite print_Tree_unfold, nodes_rev_unfold, height_unfold in *.
  rewrite flat_map_app. cbn [flat_map fst snd].
  rewrite (node_lines_unfold show t).
  set (d := length a) in *.
  assert (Hr : ∀ r, right_child_ t = Some r →
    print_Tree show fuel root r stream =
    Ok (mkStream (written stream ++
                  flat_map (λ nd, node_lines show nd.1 nd.2)
                           (nodes_rev r (S d))) 0)).
  { intros r Er. rewrite Er in Hfuel. simpl in Hfuel.
    apply (IHr r Er (right_link :: a)); [|simpl; lia].
    by apply (node_at_child _ _ _ t). }
  assert (Hl : ∀ l s, left_child_ t = Some l →
    print_Tree show fuel root l s =
    Ok (mkStream (written s ++
                  flat_map (λ nd, node_lines show nd.1 nd.2)
                           (nodes_rev l (S d))) 0)).
  { intros l s El. rewrite El in Hfuel. simpl in Hfuel.
    apply (IHl l El (left_link :: a)); [|simpl; lia].
    by apply (node_at_child _ _ _ t). }
  pose proof (depth_loop_depth a t fuel 0 Ha ltac:(lia)) as Hdepth.
  rewrite Nat.add_0_l in Hdepth. fold d in Hdepth.
  destruct (right_child_ t) as [r|]; destruct (left_child_ t) as [l|];
    rewrite ?(Hr r eq_refl); cbn [mbind result_bind];
    rewrite Hdepth; cbn [mbind result_bind]; cbn zeta;
    unfold print_Point; rewrite ?emit_indent, ?emit_plain;
    rewrite ?(Hl l _ eq_refl); cbn [written flat_map];
    rewrite ?emit_indent, ?emit_plain; cbn [written];
    rewrite ?emit_indent, ?emit_plain; cbn [written];
    rewrite ?app_nil_r, <- ?app_assoc;
    cbn [app String.list_ascii_of_string]; rewrite <- ?app_assoc;
    cbn [app String.list_ascii_of_string]; reflexivity.
Qed.
End Print_Tree_facts.

Section Print_theorem.
Context `{StdSort}.
Variable show : Z → chars.

(** X24.  [stream << tree] on a constructed tree writes, whatever field
    width the stream came with, the lines of every node once, each indented
    by four times the number of [parent_] links from the node to the root
    (and by one space at the root): the nodes come in the reverse of the
    order in which the iterator visits them. *)
Theorem print_Tree_text k (pts : list Point) fuel (stream : ostream) :
  buildable k pts → (length pts ≤ fuel)%nat →
  ∃ t,
    Tree_new pts = Ok t ∧
    print_Tree show fuel t t stream =
    Ok (mkStream (written stream ++
                  flat_map (λ nd, node_lines show nd.1 nd.2) (nodes_rev t 0)) 0) ∧
    (nodes_rev t 0).*1 = reverse (nodes t) ∧
    ∀ n d, (n, d) ∈ nodes_rev t 0 →
      ∃ a, node_at t a = Some n ∧ d = length a.
Proof.
  intros Hb Hfuel. destruct (buildable_Built k [] pts 0 Hb) as (t & Ht & HB).
  exists t. split; [done|]. split; [|split].
  - apply (print_Tree_subtree show t (Built_linked _ _ _ HB) fuel t []); [done|].
    pose proof (height_le_nodes t). apply Built_size in HB. simpl in *. lia.
  - apply nodes_rev_reverse.
  - intros n d Hn. destruct (nodes_rev_depth t 0 n d Hn) as (a & Ha & ->).
    by exists a.
Qed.
End Print_theorem.

Lemma print_Tree_text_witness :
  buildable 2 wiki ∧ Nat.le (length wiki) 6 ∧
  ∃ t,
    Tree_new wiki = Ok t ∧
    print_Tree (λ _, lit "x") 6 t t (mkStream [] 7) =
    Ok (mkStream (written (mkStream [] 7) ++
                  flat_map (λ nd, node_lines (λ _, lit "x") nd.1 nd.2)
                           (nodes_rev t 0)) 0) ∧
    (nodes_rev t 0).*1 = reverse (nodes t) ∧
    ∀ n d, (n, d) ∈ nodes_rev t 0 →
      ∃ a, node_at t a = Some n ∧ d = length a.
Proof.
  split; [exact buildable_wiki|]. split; [vm_compute; lia|].
  exact (print_Tree_text (λ _, lit "x") 2 wiki 6 (mkStream [] 7)
           buildable_wiki (le_n 6)).
Defined.

(** * Earlier versions of the tree *)

Lemma comparator_reads_inside k axis (pts : list (list Z)) :
  Forall (λ p, (k ≤ length p)%nat) pts → (axis < k)%nat →
  comparator_reads_outside axis pts = false.
Proof.
  intros Hall Hax. unfold comparator_reads_outside, comparator_throws.
  apply andb_false_iff. right.
  induction Hall as [|p pts Hp _ IH]; [done|]. simpl.
  rewrite IH, orb_false_r. apply Nat.leb_gt. unfold Point_size. lia.
Qed.

Lemma deleteTree__Node_of_Tree (t : Tree) :
  NodeTree.deleteTree_ (Node_of_Tree t) = length (nodes t).
Proof.
  induction t as [t IHl IHr] using Tree_ind.
  rewrite nodes_unfold, length_app. cbn [length].
  destruct t as [l r par ax dims p]. cbn in *.
  assert (match l with
          | Some l0 => NodeTree.deleteTree_ (Node_of_Tree l0)
          | None => O
          end = length (nodes_of l)) as Hl
    by (destruct l as [l0|]; [by apply IHl | done]).
  assert (match r with
          | Some r0 => NodeTree.deleteTree_ (Node_of_Tree r0)
          | None => O
          end = length (nodes_of r)) as Hr
    by (destruct r as [r0|]; [by apply IHr | done]).
  destruct l, r; simpl in *; lia.
Qed.

Section Versions.
Context `{StdSort}.

(** The function [KDTree] builds what [RecursiveInit] builds, less the
    fields that a [Node] lacks. *)
Lemma Built_KDTree_ k this (pts : list Point) depth par o :
  Built k this pts depth par o →
  Forall (λ p, length p = k) pts → (0 < k)%nat →
  ∀ fuel, (length pts < fuel)%nat →
    NodeTree.KDTree_ fuel pts depth = Ok (Node_of_Tree <$> o).
Proof.
  induction 1 as [|this pts depth par median l r Hne Hmed _ IHl _ IHr];
    intros Hall Hk fuel Hfuel;
    (destruct fuel as [|fuel]; [simpl in Hfuel; lia|]); [done|].
  cbn [NodeTree.KDTree_].
  destruct pts as [|p0 pts]; [done|].
  assert (length p0 = k) as -> by by inversion Hall.
  destruct (Nat.eqb_spec k 0) as [|_]; [lia|]. cbn zeta.
  rewrite (comparator_reads_inside k)
    by (first [apply Nat.mod_upper_bound; lia
              | apply (list.Forall_impl _ _ _ Hall); intros; lia]).
  rewrite Hmed. cbn [mbind result_bind].
  pose proof (lookup_lt_Some _ _ _ Hmed) as Hm.
  rewrite std_sort_length in Hm.
  rewrite Nat.add_1_r.
  rewrite IHl; [|by apply Forall_take, std_sort_Forall|done|].
  2:{ rewrite length_take, std_sort_length. simpl in *. lia. }
  cbn [mbind result_bind].
  rewrite IHr; [|by apply Forall_drop, std_sort_Forall|done|].
  2:{ rewrite length_drop, std_sort_length. simpl in *. lia. }
  cbn [mbind result_bind]. by destruct l, r.
Qed.

(** X25.  The first version of the construction, the function [KDTree] of
    [kd_tree.h], builds the nodes that [RecursiveInit] builds, with the same
    points and children; unlike [RecursiveInit] it accepts an empty range,
    for which it returns a null pointer. [deleteTree] deletes one object for
    every point, and dereferences the null pointer that the empty range
    gives. *)
Theorem KDTree_first_version k (pts : list Point) depth :
  buildable k pts →
  ∃ t, RecursiveInit [] pts depth = Ok t ∧
       NodeTree.KDTree pts depth = Ok (Some (Node_of_Tree t)) ∧
       NodeTree.deleteTree (Some (Node_of_Tree t)) = Ok (length pts) ∧
       NodeTree.KDTree [] depth = Ok None ∧
       NodeTree.KDTree [] depth ≫= NodeTree.deleteTree
       = Err undefined_behaviour.
Proof.
  intros Hb. destruct (buildable_Built k [] pts depth Hb) as (t & Ht & HB).
  destruct Hb as (Hne & Hk & Hall).
  exists t. split; [done|]. split; [|split; [|done]].
  - unfold NodeTree.KDTree.
    by rewrite (Built_KDTree_ _ _ _ _ _ _ HB Hall Hk) by lia.
  - cbn [NodeTree.deleteTree]. rewrite deleteTree__Node_of_Tree.
    apply Built_size in HB. simpl in HB. by rewrite HB.
Qed.

Lemma iterator_new_setParent (t : KDTreeK.KDTree) p a :
  KDTreeK.iterator_new (KDTreeK.setParent t p) a = KDTreeK.iterator_new t a.
Proof. by destruct t. Qed.

Lemma KDTree_new__unassigned k fuel : ∀ this (pts : list (list Z)) depth,
  pts ≠ [] → (0 < k)%nat → Forall (λ p, (k ≤ length p)%nat) pts →
  (length pts ≤ fuel)%nat →
  ∃ t, KDTreeK.KDTree_new_ k fuel this pts depth = Ok t ∧
       (∀ a, KDTreeK.iterator_new t a = Err undefined_behaviour) ∧
       KDTreeK.split_axis_ t = None ∧
       ((length pts ≤ 2)%nat →
        KDTreeK.left_child_ t = KDTreeK.null ∧
        KDTreeK.right_child_ t = KDTreeK.unassigned).
Proof.
  induction fuel as [|fuel IH]; intros this pts depth Hne Hk Hall Hfuel.
  { destruct pts; [done | simpl in Hfuel; lia]. }
  cbn [KDTreeK.KDTree_new_].
  destruct (Nat.eqb_spec k 0) as [|_]; [lia|]. cbn zeta.
  rewrite (comparator_reads_inside k)
    by (first [done | apply Nat.mod_upper_bound; lia]).
  set (sorted := std_sort (depth mod k)%nat pts).
  set (m := (length pts / 2)%nat).
  assert (0 < length pts)%nat as Hpos by (destruct pts; [done | simpl; lia]).
  half_facts (length pts).
  assert (Hsorted : length sorted = length pts) by apply std_sort_length.
  destruct (lookup_lt_is_Some_2 sorted m) as [median Hmed]; [unfold m; lia|].
  rewrite Hmed. cbn [mbind result_bind].
  assert (Hbefore : length (take m sorted) = m)
    by (rewrite length_take; unfold m; lia).
  assert (Hafter : length (drop (S m) sorted) = (length pts - S m)%nat)
    by (rewrite length_drop; lia).
  assert (Hsizes : Forall (λ p, (k ≤ length p)%nat) sorted)
    by by apply std_sort_Forall.
  destruct (Nat.leb_spec (length (take m sorted)) 0) as [Hz|Hnz].
  - (* one point *)
    cbn [mbind result_bind].
    destruct (Nat.leb_spec (length (drop (S m) sorted)) 0) as [_|Hnz];
      [|unfold m in *; lia].
    cbn [mbind result_bind]. eexists. split; [done|]. by repeat split.
  - destruct (IH (left_link :: this) (take m sorted) (depth + 1)%nat)
      as (l & -> & Hl & _); [|done|by apply Forall_take|unfold m in *; lia|].
    { intros E. rewrite E in Hnz. simpl in Hnz. lia. }
    cbn [mbind result_bind].
    destruct (Nat.leb_spec (length (drop (S m) sorted)) 0) as [Hz|Hnz'].
    + (* two points *)
      cbn [mbind result_bind]. eexists. split; [done|]. by repeat split.
    + destruct (IH (right_link :: this) (drop (S m) sorted) (depth + 1)%nat)
        as (r & -> & _); [|done|by apply Forall_drop|unfold m in *; lia|].
      { intros E. rewrite E in Hnz'. simpl in Hnz'. lia. }
      cbn [mbind result_bind]. eexists. split; [done|]. split; [|split].
      * intros a.
        change (KDTreeK.iterator_new (KDTreeK.setParent l (at_address this))
                  (left_link :: a) = Err undefined_behaviour).
        rewrite iterator_new_setParent. apply Hl.
      * done.
      * unfold m in *. lia.
Qed.

(** X26.  The second version of the construction, the constructor of the
    class [KDTree<T,k>], sets [left_child_] to null where it means to set
    [right_child_], for the empty range after the median. Every object it
    constructs therefore has a node whose [right_child_] it never assigned,
    and [begin()], which descends to the left, reads it: [begin()] is
    undefined on every tree. [split_axis_] is never assigned either, and the
    tree built from two points no longer refers to its left child: it owns
    one of the two points. *)
Theorem KDTreeK_begin_undefined k (pts : list (list Z)) :
  pts ≠ [] → (0 < k)%nat → Forall (λ p, (k ≤ length p)%nat) pts →
  ∃ t, KDTreeK.KDTree_new k pts = Ok t ∧
       KDTreeK.begin t = Err undefined_behaviour ∧
       KDTreeK.split_axis_ t = None ∧
       ((length pts ≤ 2)%nat →
        KDTreeK.left_child_ t = KDTreeK.null ∧
        KDTreeK.right_child_ t = KDTreeK.unassigned ∧
        KDTreeK.points t = [KDTreeK.split_point_ t]).
Proof.
  intros Hne Hk Hall.
  destruct (KDTree_new__unassigned k (S (length pts)) [] pts 0 Hne Hk Hall)
    as (t & Ht & Hbegin & Hax & Htwo); [lia|].
  exists t. split; [done|]. split; [apply Hbegin|]. split; [done|].
  intros Hlen. destruct (Htwo Hlen) as [Hl Hr]. do 2 (split; [done|]).
  destruct t. simpl in *. by rewrite Hl, Hr.
Qed.
End Versions.

Lemma KDTree_first_version_witness :
  buildable 2 wiki ∧
  ∃ t, RecursiveInit [] wiki 0 = Ok t ∧
       NodeTree.KDTree wiki 0 = Ok (Some (Node_of_Tree t)) ∧
       NodeTree.deleteTree (Some (Node_of_Tree t)) = Ok (length wiki) ∧
       NodeTree.KDTree [] 0 = Ok None ∧
       NodeTree.KDTree [] 0 ≫= NodeTree.deleteTree = Err undefined_behaviour.
Proof.
  split; [exact buildable_wiki|].
  exact (KDTree_first_version 2 wiki 0 buildable_wiki).
Defined.

Lemma KDTreeK_begin_undefined_witness :
  Forall (λ p : list Z, Nat.le 2 (length p)) [[2; 3]; [5; 4]] ∧
  ∃ t, KDTreeK.KDTree_new 2 [[2; 3]; [5; 4]] = Ok t ∧
       KDTreeK.begin t = Err undefined_behaviour ∧
       KDTreeK.split_axis_ t = None ∧
       (Nat.le (length [[2; 3]; [5; 4]]) 2 →
        KDTreeK.left_child_ t = KDTreeK.null ∧
        KDTreeK.right_child_ t = KDTreeK.unassigned ∧
        KDTreeK.points t = [KDTreeK.split_point_ t]).
Proof.
  assert (Hall : Forall (λ p : list Z, Nat.le 2 (length p)) [[2; 3]; [5; 4]])
    by (repeat constructor).
  split; [exact Hall|].
  apply (KDTreeK_begin_undefined 2 [[2; 3]; [5; 4]]); [discriminate | lia | exact Hall].
Defined.
